(** * go-smtp: the DATA payload decoder ([data.go])

    A shallow embedding of [SMTPError], [newDataReader] and
    [dataReader.Read], followed by the properties of the decoder: the
    dot-stuffing state machine, terminator detection, the size limit and
    the translation of read failures into protocol errors. *)

From Stdlib Require Import ZArith Lia Bool String.
From Stdlib Require Import Strings.Byte.
From stdpp Require Import base list.

Local Open Scope Z_scope.

(** ** Error values *)

(** [type EnhancedCode [3]int] *)
Definition EnhancedCode : Type := (Z * Z * Z)%type.

Record SMTPError := mkSMTPError {
  Code : Z;
  Enhanced : EnhancedCode;
  Message : string
}.

Definition NoEnhancedCode : EnhancedCode := (-1, -1, -1).
Definition EnhancedCodeNotSet : EnhancedCode := (0, 0, 0).

(** [func (err *SMTPError) Error() string] *)
Definition Error (err : SMTPError) : string := Message err.

(** [func (err *SMTPError) Temporary() bool]: Go's [/] on [int] truncates
    towards zero, which is [Z.quot]. *)
Definition Temporary (err : SMTPError) : bool := Z.quot (Code err) 100 =? 4.

Definition ErrDataTooLarge : SMTPError :=
  mkSMTPError 552 (5, 3, 4) "Maximum message size exceeded".

Definition ErrDataTimeout : SMTPError :=
  mkSMTPError 451 (4, 4, 2) "Timeout waiting for data from client".

(** The values of Go's [error] interface that [Read] can see or return.
    [net_Error] stands for every error whose dynamic type implements
    [net.Error] (it carries what [Timeout()] answers); [other_error] for
    every error that does not.  [*SMTPError] has no [Timeout] method, and
    [io.EOF] and [io.ErrUnexpectedEOF] are plain [errors.New] values, so
    none of them implements [net.Error]. *)
Inductive error :=
| io_EOF
| io_ErrUnexpectedEOF
| smtp_error (e : SMTPError)
| net_Error (timeout : bool) (id : Z)
| other_error (id : Z).

(** [err == io.EOF] *)
Definition is_io_EOF (e : error) : bool :=
  match e with io_EOF => true | _ => false end.

(** [e, ok := err.(net.Error); ok && e.Timeout()] *)
Definition is_net_timeout (e : error) : bool :=
  match e with net_Error t _ => t | _ => false end.

(** ** The connection *)

(** What a call on the connection leaves behind, in the order of the calls. *)
Inductive event :=
| EvSetReadDeadline (d : Z) (res : option error)
| EvReadByte (res : byte + error)
| EvPrintf (format : string) (arg : error).

(** The part of [*Conn] the decoder touches.  [text_R] is what the buffered
    reader [c.text.R] will answer to the coming [ReadByte] calls, one entry
    per call ([io.EOF] once it is exhausted); [deadline_results] is what
    [c.conn.SetReadDeadline] will answer ([nil] once exhausted); [events]
    records the calls made so far, oldest first, the [ErrorLog] lines
    among them. *)
Record Conn := mkConn {
  MaxMessageBytes : Z;
  ReadTimeout : Z;
  text_R : list (byte + error);
  deadline_results : list (option error);
  events : list event
}.

Definition log_event (c : Conn) (ev : event) : Conn :=
  mkConn (MaxMessageBytes c) (ReadTimeout c) (text_R c)
         (deadline_results c) (events c ++ [ev]).

Definition set_text_R (c : Conn) (src : list (byte + error)) : Conn :=
  mkConn (MaxMessageBytes c) (ReadTimeout c) src
         (deadline_results c) (events c).

(** [r.c.conn.SetReadDeadline(time.Now().Add(r.c.server.ReadTimeout))]:
    the deadline is recorded by its distance from now. *)
Definition SetReadDeadline (c : Conn) : Conn * option error :=
  match deadline_results c with
  | [] => (log_event c (EvSetReadDeadline (ReadTimeout c) None), None)
  | res :: rest =>
      (log_event
         (mkConn (MaxMessageBytes c) (ReadTimeout c) (text_R c) rest (events c))
         (EvSetReadDeadline (ReadTimeout c) res),
       res)
  end.

(** [if r.c.server.ReadTimeout != 0 { err = r.c.conn.SetReadDeadline(...) }] *)
Definition arm_deadline (c : Conn) : Conn * option error :=
  if ReadTimeout c =? 0 then (c, None) else SetReadDeadline c.

(** [r.c.server.ErrorLog.Printf(r.c, format, err)] *)
Definition Printf (c : Conn) (format : string) (arg : error) : Conn :=
  log_event c (EvPrintf format arg).

(** ** The decoder *)

(** The [iota] constants of [Read], in their order. *)
Inductive State :=
| stateBeginLine
| stateDot
| stateDotCR
| stateCR
| stateData
| stateEOF.

Definition State_eqb (a b : State) : bool :=
  match a, b with
  | stateBeginLine, stateBeginLine | stateDot, stateDot
  | stateDotCR, stateDotCR | stateCR, stateCR
  | stateData, stateData | stateEOF, stateEOF => true
  | _, _ => false
  end.

Record dataReader := mkReader {
  state : State;
  limited : bool;
  n : Z
}.

(** [newDataReader]: the zero value of the struct, limited only when the
    configured maximum is positive. *)
Definition newDataReader (c : Conn) : dataReader :=
  if 0 <? MaxMessageBytes c
  then mkReader stateBeginLine true (MaxMessageBytes c)
  else mkReader stateBeginLine false 0.

Definition dot : byte := x2e.
Definition CR : byte := x0d.
Definition LF : byte := x0a.

(** The [switch r.state] of the loop body: the next state, and whether the
    byte reaches [b[n] = c; n++] ([true]) or the case ends in [continue]
    ([false]).  In Go a [break] inside a [case] leaves the [switch] only,
    so [stateCR] on a line feed still stores the byte.  [stateEOF] has no
    case; the loop never runs the switch in that state. *)
Definition transition (st : State) (c : byte) : State * bool :=
  match st with
  | stateBeginLine =>
      if Byte.eqb c dot then (stateDot, false) else (stateData, true)
  | stateDot =>
      if Byte.eqb c CR then (stateDotCR, false)
      else if Byte.eqb c LF then (stateEOF, false)
      else (stateData, true)
  | stateDotCR =>
      if Byte.eqb c LF then (stateEOF, false) else (stateData, true)
  | stateCR =>
      if Byte.eqb c LF then (stateBeginLine, true) else (stateData, true)
  | stateData =>
      let st1 := if Byte.eqb c CR then stateCR else stateData in
      let st2 := if Byte.eqb c LF then stateBeginLine else st1 in
      (st2, true)
  | stateEOF => (stateEOF, true)
  end.

(** What the [if err != nil] block makes of a failed [ReadByte]. *)
Definition read_failure (c : Conn) (e : error) : Conn * error :=
  let e1 := if is_io_EOF e then io_ErrUnexpectedEOF else e in
  if is_net_timeout e1
  then (Printf c "data read timeout: %w" e1, smtp_error ErrDataTimeout)
  else (c, e1).

Record LoopOut := mkLoopOut {
  lo_src : list (byte + error);
  lo_conn : Conn;
  lo_state : State;
  lo_buf : list byte;
  lo_n : nat;
  lo_err : option error
}.

(** The [for n < len(b) && r.state != stateEOF] loop.  [src] is the content
    of [c.text.R], passed on its own because every iteration that goes on
    takes one entry off it; [k] is [len(b)] after the reslice [b[0:r.n]]
    while [b] is the caller's whole buffer, which the reslice shares. *)
Fixpoint read_loop (src : list (byte + error)) (c : Conn) (st : State)
    (b : list byte) (k cnt : nat) {struct src} : LoopOut :=
  if (cnt <? k)%nat && negb (State_eqb st stateEOF) then
    let '(c1, derr) := arm_deadline c in
    match derr with
    | Some e => mkLoopOut src c1 st b cnt (Some e)
    | None =>
        match src with
        | [] =>
            let '(c2, e') :=
              read_failure (log_event c1 (EvReadByte (inr io_EOF))) io_EOF in
            mkLoopOut [] c2 st b cnt (Some e')
        | inr e :: src' =>
            let '(c2, e') :=
              read_failure (log_event c1 (EvReadByte (inr e))) e in
            mkLoopOut src' c2 st b cnt (Some e')
        | inl ch :: src' =>
            let c2 := log_event c1 (EvReadByte (inl ch)) in
            let '(st', store) := transition st ch in
            if store
            then read_loop src' c2 st' (<[cnt := ch]> b) k (S cnt)
            else read_loop src' c2 st' b k cnt
        end
    end
  else mkLoopOut src c st b cnt None.

Record ReadOut := mkReadOut {
  rd : dataReader;
  cn : Conn;
  buf : list byte;
  count : nat;
  err : option error
}.

(** [if int64(len(b)) > r.n { b = b[0:r.n] }]: [len(b)] after the reslice. *)
Definition cap (r : dataReader) (b : list byte) : nat :=
  if limited r && (n r <? Z.of_nat (length b))
  then Z.to_nat (n r) else length b.

(** [func (r *dataReader) Read(b []byte) (n int, err error)].  The result
    carries the reader and the connection after the call and the caller's
    buffer as the call leaves it.  [r.n -= int64(n)] cannot wrap: it is
    reached with [n <= len(b) <= r.n]. *)
Definition Read (r : dataReader) (c : Conn) (b : list byte) : ReadOut :=
  if limited r && (n r <=? 0) then
    mkReadOut r c b 0 (Some (smtp_error ErrDataTooLarge))
  else
    let lo := read_loop (text_R c) c (state r) b (cap r b) 0 in
    let err1 :=
      match lo_err lo with
      | None =>
          if State_eqb (lo_state lo) stateEOF then Some io_EOF else None
      | Some e => Some e
      end in
    let n' := if limited r then n r - Z.of_nat (lo_n lo) else n r in
    mkReadOut (mkReader (lo_state lo) (limited r) n')
              (set_text_R (lo_conn lo) (lo_src lo))
              (lo_buf lo) (lo_n lo) err1.

(** The bytes a call hands to its caller: [b[:n]]. *)
Definition chunk (o : ReadOut) : list byte := take (count o) (buf o).

(** ** Callers *)

(** A caller that goes on calling [Read], one call per buffer of [bufs],
    whatever the calls return. *)
Fixpoint ReadCalls (bufs : list (list byte)) (r : dataReader) (c : Conn)
    : list ReadOut :=
  match bufs with
  | [] => []
  | b :: bufs' =>
      let o := Read r c b in o :: ReadCalls bufs' (rd o) (cn o)
  end.

(** The reader and the connection after those calls. *)
Fixpoint after_calls (bufs : list (list byte)) (r : dataReader) (c : Conn)
    : dataReader * Conn :=
  match bufs with
  | [] => (r, c)
  | b :: bufs' => let o := Read r c b in after_calls bufs' (rd o) (cn o)
  end.

(** A caller that reads until a call returns a non-nil error, as
    [io.Copy] and [io.ReadAll] do. *)
Fixpoint ReadToEnd (bufs : list (list byte)) (r : dataReader) (c : Conn)
    : list ReadOut :=
  match bufs with
  | [] => []
  | b :: bufs' =>
      let o := Read r c b in
      match err o with
      | Some _ => [o]
      | None => o :: ReadToEnd bufs' (rd o) (cn o)
      end
  end.

(** All the bytes a sequence of calls handed out. *)
Definition received (outs : list ReadOut) : list byte :=
  concat (map chunk outs).

(** The error of the last call, [None] when there was no call or it
    returned [nil]. *)
Definition final_err (outs : list ReadOut) : option error :=
  match last outs with
  | Some o => err o
  | None => None
  end.

(** ** The state machine on a whole input *)

(** The run of [transition] over [bs] from [st], stopping in [stateEOF] as
    the loop does: the state reached and the bytes stored. *)
Fixpoint decode (st : State) (bs : list byte) : State * list byte :=
  match bs with
  | [] => (st, [])
  | ch :: bs' =>
      if State_eqb st stateEOF then (st, [])
      else
        let '(st1, store) := transition st ch in
        let '(st2, out) := decode st1 bs' in
        (st2, if store then ch :: out else out)
  end.

Definition decoded (bs : list byte) : list byte := snd (decode stateBeginLine bs).

Definition bytes_of (s : string) : list byte := list_byte_of_string s.

Definition CRLF : list byte := [CR; LF].

Definition wire (bs : list byte) : list (byte + error) := map inl bs.

(** A connection whose reader holds [bs] and then the end of input. *)
Definition conn_of (max timeout : Z) (bs : list byte) : Conn :=
  mkConn max timeout (wire bs) [] [].

(** The deadline can always be set: it is not configured, or
    [SetReadDeadline] answers [nil] every time. *)
Definition deadlines_ok (c : Conn) : Prop :=
  ReadTimeout c = 0 \/ Forall (fun res => res = None) (deadline_results c).

(** The reader has room for [len] more bytes and one to spare. *)
Definition room_for (r : dataReader) (len : nat) : Prop :=
  limited r = false \/ Z.of_nat len < n r.

(** ** The sender's side *)

(** A line of a message body: its bytes without the closing CRLF.  It holds
    no line feed; carriage returns may stand anywhere in it. *)
Definition is_line (l : list byte) : Prop := Forall (fun ch => ch <> LF) l.

(** The message a list of lines stands for: each line closed by CRLF. *)
Definition body (lines : list (list byte)) : list byte :=
  concat (map (fun l => l ++ CRLF) lines).

(** Modelled from the spec: the sender's escaping, which is not part of
    [data.go].  "The sender escapes any line beginning with [.] by
    prefixing an extra [.]". *)
Definition stuff_line (l : list byte) : list byte :=
  match l with
  | ch :: _ => if Byte.eqb ch dot then dot :: l else l
  | [] => []
  end.

(** Modelled from the spec: the escaped body on the wire, "and signals
    end-of-message with a line containing only [.] followed by CRLF". *)
Definition dot_stuff (lines : list (list byte)) : list byte :=
  concat (map (fun l => stuff_line l ++ CRLF) lines) ++ dot :: CRLF.

(** [count] zeroed buffers of [k] bytes each, as a caller would
    [make([]byte, k)] them. *)
Definition buffers (k count : nat) : list (list byte) :=
  repeat (repeat x00 k) count.

(** ** Reading the record of calls *)

(** The lines written to the error log. *)
Fixpoint log_lines (evs : list event) : list (string * error) :=
  match evs with
  | [] => []
  | EvPrintf format arg :: evs' => (format, arg) :: log_lines evs'
  | _ :: evs' => log_lines evs'
  end.

(** Every [ReadByte] of [evs] comes right after a [SetReadDeadline] that
    set the deadline [d] from now and answered [nil]; [ready] tells
    whether such a call has just been seen. *)
Fixpoint armed (d : Z) (ready : bool) (evs : list event) : bool :=
  match evs with
  | [] => true
  | EvSetReadDeadline d' None :: evs' => armed d (d' =? d) evs'
  | EvSetReadDeadline _ (Some _) :: evs' => armed d false evs'
  | EvReadByte _ :: evs' => ready && armed d false evs'
  | EvPrintf _ _ :: evs' => armed d false evs'
  end.

(** The error [Read] returns for a [ReadByte] that failed with [e]. *)
Definition translate (e : error) : error :=
  if is_io_EOF e then io_ErrUnexpectedEOF
  else if is_net_timeout e then smtp_error ErrDataTimeout
  else e.

(** The sum of the counts the calls returned. *)
Definition total (outs : list ReadOut) : Z :=
  foldr (fun o acc => Z.of_nat (count o) + acc) 0 outs.

(** What every reader made by [newDataReader] and used through [Read]
    satisfies: a limited reader has a count of remaining bytes that is not
    negative, and positive once the terminator has been read. *)
Definition reader_inv (r : dataReader) : Prop :=
  limited r = true -> 0 <= n r /\ (state r = stateEOF -> 0 < n r).

(** * Properties *)

(** ** The state machine *)

Lemma State_eqb_eq a b : State_eqb a b = true <-> a = b.
Proof. destruct a, b; simpl; split; intros H; congruence. Qed.

Lemma State_eqb_neq a b : State_eqb a b = false <-> a <> b.
Proof. destruct a, b; simpl; split; intros H; congruence. Qed.

Lemma decode_EOF bs : decode stateEOF bs = (stateEOF, []).
Proof. destruct bs; reflexivity. Qed.

Lemma decode_cons st ch bs :
  st <> stateEOF ->
  decode st (ch :: bs) =
    (fst (decode (fst (transition st ch)) bs),
     if snd (transition st ch)
     then ch :: snd (decode (fst (transition st ch)) bs)
     else snd (decode (fst (transition st ch)) bs)).
Proof.
  intros Hst. simpl. apply State_eqb_neq in Hst. rewrite Hst.
  destruct (transition st ch) as [st1 store]. simpl.
  destruct (decode st1 bs); reflexivity.
Qed.

Lemma decode_app st xs ys :
  decode st (xs ++ ys) =
    (fst (decode (fst (decode st xs)) ys),
     snd (decode st xs) ++ snd (decode (fst (decode st xs)) ys)).
Proof.
  revert st. induction xs as [|ch xs IH]; intros st.
  - simpl. destruct (decode st ys); reflexivity.
  - destruct (State_eqb st stateEOF) eqn:E.
    + apply State_eqb_eq in E. subst st.
      rewrite !decode_EOF. simpl. rewrite ?decode_EOF. reflexivity.
    + apply State_eqb_neq in E.
      change ((ch :: xs) ++ ys) with (ch :: (xs ++ ys)).
      rewrite !decode_cons by assumption. simpl. rewrite IH.
      destruct (snd (transition st ch)); reflexivity.
Qed.

Lemma decode_state_app st xs ys :
  fst (decode st (xs ++ ys)) = fst (decode (fst (decode st xs)) ys).
Proof. rewrite decode_app. reflexivity. Qed.

Lemma decode_out_app st xs ys :
  snd (decode st (xs ++ ys)) =
    snd (decode st xs) ++ snd (decode (fst (decode st xs)) ys).
Proof. rewrite decode_app. reflexivity. Qed.

(** ** What the loop leaves of the connection *)

Lemma deadlines_ok_log c ev : deadlines_ok c -> deadlines_ok (log_event c ev).
Proof. intros H. exact H. Qed.

Lemma arm_deadline_frame c :
  ReadTimeout (fst (arm_deadline c)) = ReadTimeout c /\
  MaxMessageBytes (fst (arm_deadline c)) = MaxMessageBytes c /\
  text_R (fst (arm_deadline c)) = text_R c.
Proof.
  unfold arm_deadline, SetReadDeadline.
  destruct (ReadTimeout c =? 0); [auto|].
  destruct (deadline_results c); simpl; auto.
Qed.

Lemma arm_deadline_ok c :
  deadlines_ok c ->
  snd (arm_deadline c) = None /\ deadlines_ok (fst (arm_deadline c)).
Proof.
  intros H. unfold arm_deadline.
  destruct (ReadTimeout c =? 0) eqn:E; [auto|].
  apply Z.eqb_neq in E. destruct H as [H|H]; [contradiction|].
  unfold SetReadDeadline, deadlines_ok.
  destruct (deadline_results c) as [|res rest] eqn:D; simpl.
  - split; [reflexivity|]. right. rewrite D. constructor.
  - inversion H as [|? ? Hres Hrest]; subst. split; [reflexivity|].
    right. exact Hrest.
Qed.

Lemma read_failure_frame c e :
  ReadTimeout (fst (read_failure c e)) = ReadTimeout c /\
  MaxMessageBytes (fst (read_failure c e)) = MaxMessageBytes c /\
  deadline_results (fst (read_failure c e)) = deadline_results c.
Proof.
  unfold read_failure.
  destruct (is_net_timeout (if is_io_EOF e then io_ErrUnexpectedEOF else e));
    simpl; auto.
Qed.

(** The loop never touches the configuration. *)
Lemma read_loop_config src : forall c st b k cnt,
  ReadTimeout (lo_conn (read_loop src c st b k cnt)) = ReadTimeout c /\
  MaxMessageBytes (lo_conn (read_loop src c st b k cnt)) = MaxMessageBytes c.
Proof.
  induction src as [|x src IH]; intros c st b k cnt; simpl;
    destruct ((cnt <? k)%nat && negb (State_eqb st stateEOF)); simpl; auto;
    destruct (arm_deadline_frame c) as (HT & HM & _);
    destruct (arm_deadline c) as [c1 [e|]]; simpl in *; auto.
  destruct x as [ch|e].
  - destruct (transition st ch) as [st' [|]];
      match goal with
      | |- context [read_loop src ?c' ?s' ?b' ?k' ?n'] =>
          destruct (IH c' s' b' k' n') as [H1 H2]
      end; simpl in *; split; congruence.
  - destruct (read_failure_frame (log_event c1 (EvReadByte (inr e))) e)
      as (H1 & H2 & _).
    destruct (read_failure _ e) as [c2 e']; simpl in *. split; congruence.
Qed.

(** ** The loop on a source that delivers every byte *)

Lemma take_store (b : list byte) (cnt : nat) (ch : byte) :
  (cnt < length b)%nat ->
  take (S cnt) (<[cnt := ch]> b) = take cnt b ++ [ch].
Proof.
  intros H. rewrite (take_S_r _ _ ch).
  - rewrite take_insert_ge by lia. reflexivity.
  - apply list_lookup_insert_eq. exact H.
Qed.

Lemma read_loop_wire bs : forall c st b k cnt,
  deadlines_ok c -> (cnt <= k)%nat -> (k <= length b)%nat ->
  exists pre post,
    bs = pre ++ post /\
    lo_src (read_loop (wire bs) c st b k cnt) = wire post /\
    lo_state (read_loop (wire bs) c st b k cnt) = fst (decode st pre) /\
    take (lo_n (read_loop (wire bs) c st b k cnt))
         (lo_buf (read_loop (wire bs) c st b k cnt))
      = take cnt b ++ snd (decode st pre) /\
    (lo_n (read_loop (wire bs) c st b k cnt) <= k)%nat /\
    length (lo_buf (read_loop (wire bs) c st b k cnt)) = length b /\
    deadlines_ok (lo_conn (read_loop (wire bs) c st b k cnt)) /\
    ((lo_err (read_loop (wire bs) c st b k cnt) = None /\
      (lo_n (read_loop (wire bs) c st b k cnt) = k \/
       lo_state (read_loop (wire bs) c st b k cnt) = stateEOF)) \/
     (lo_err (read_loop (wire bs) c st b k cnt) = Some io_ErrUnexpectedEOF /\
      post = [] /\
      lo_state (read_loop (wire bs) c st b k cnt) <> stateEOF)) /\
    ((cnt < k)%nat -> st <> stateEOF ->
     pre <> [] \/
     lo_err (read_loop (wire bs) c st b k cnt) = Some io_ErrUnexpectedEOF).
Proof.
  induction bs as [|ch bs IH]; intros c st b k cnt Hok Hcnt Hk.
  - exists [], []. simpl.
    destruct ((cnt <? k)%nat && negb (State_eqb st stateEOF)) eqn:C.
    + apply andb_true_iff in C as [C1 C2].
      apply negb_true_iff, State_eqb_neq in C2.
      destruct (arm_deadline_ok c Hok) as [Hd Hok1].
      destruct (arm_deadline c) as [c1 derr]; simpl in *; subst derr.
      simpl. rewrite app_nil_r.
      repeat split; auto; try lia.
    + apply andb_false_iff in C.
      simpl. rewrite app_nil_r. repeat split; auto.
      * left. split; [reflexivity|].
        destruct C as [C|C].
        -- left. apply Nat.ltb_ge in C. lia.
        -- right. apply negb_false_iff, State_eqb_eq in C. exact C.
      * intros H1 H2. exfalso. destruct C as [C|C].
        -- apply Nat.ltb_ge in C. lia.
        -- apply negb_false_iff, State_eqb_eq in C. contradiction.
  - change (wire (ch :: bs)) with (inl ch :: wire bs). simpl.
    destruct ((cnt <? k)%nat && negb (State_eqb st stateEOF)) eqn:C.
    + apply andb_true_iff in C as [C1 C2].
      apply negb_true_iff, State_eqb_neq in C2. apply Nat.ltb_lt in C1.
      destruct (arm_deadline_ok c Hok) as [Hd Hok1].
      destruct (arm_deadline c) as [c1 derr]; simpl in *; subst derr.
      destruct (transition st ch) as [st' store] eqn:T.
      destruct store.
      * destruct (IH (log_event c1 (EvReadByte (inl ch))) st'
                    (<[cnt := ch]> b) k (S cnt))
          as (pre & post & E & Hsrc & Hst & Htake & Hn & Hlen & Hdl & Herr & _).
        { apply deadlines_ok_log, Hok1. }
        { lia. }
        { rewrite length_insert. exact Hk. }
        exists (ch :: pre), post.
        rewrite decode_cons by assumption. rewrite T. simpl.
        rewrite take_store in Htake by lia.
        rewrite length_insert in Hlen.
        rewrite <- app_assoc in Htake. simpl in Htake.
        repeat split; auto; try congruence.
      * destruct (IH (log_event c1 (EvReadByte (inl ch))) st' b k cnt)
          as (pre & post & E & Hsrc & Hst & Htake & Hn & Hlen & Hdl & Herr & _).
        { apply deadlines_ok_log, Hok1. }
        { lia. }
        { exact Hk. }
        exists (ch :: pre), post.
        rewrite decode_cons by assumption. rewrite T. simpl.
        repeat split; auto; try congruence.
    + apply andb_false_iff in C.
      exists [], (ch :: bs). simpl. rewrite app_nil_r.
      repeat split; auto.
      * left. split; [reflexivity|].
        destruct C as [C|C].
        -- left. apply Nat.ltb_ge in C. lia.
        -- right. apply negb_false_iff, State_eqb_eq in C. exact C.
      * intros H1 H2. exfalso. destruct C as [C|C].
        -- apply Nat.ltb_ge in C. lia.
        -- apply negb_false_iff, State_eqb_eq in C. contradiction.
Qed.

(** ** One call on a source that delivers every byte *)

Lemma cap_le r b : (cap r b <= length b)%nat.
Proof.
  unfold cap. destruct (limited r); simpl; [|lia].
  destruct (n r <? Z.of_nat (length b)) eqn:E; [|lia].
  apply Z.ltb_lt in E. lia.
Qed.

Lemma cap_limit r b : limited r = true -> 0 < n r -> Z.of_nat (cap r b) <= n r.
Proof.
  intros Hl Hn. unfold cap. rewrite Hl. simpl.
  destruct (n r <? Z.of_nat (length b)) eqn:E.
  - lia.
  - apply Z.ltb_ge in E. lia.
Qed.

Lemma cap_pos r b :
  b <> [] -> limited r = false \/ 0 < n r -> (0 < cap r b)%nat.
Proof.
  intros Hb Hr. assert (0 < length b)%nat by (destruct b; simpl; [congruence|lia]).
  unfold cap. destruct (limited r); simpl; [|lia].
  destruct Hr as [Hr|Hr]; [discriminate|].
  destruct (n r <? Z.of_nat (length b)); lia.
Qed.

(** The call once the size check has let it through. *)
Lemma Read_unfold r c b :
  limited r = false \/ 0 < n r ->
  Read r c b =
    let lo := read_loop (text_R c) c (state r) b (cap r b) 0 in
    mkReadOut
      (mkReader (lo_state lo) (limited r)
                (if limited r then n r - Z.of_nat (lo_n lo) else n r))
      (set_text_R (lo_conn lo) (lo_src lo))
      (lo_buf lo) (lo_n lo)
      match lo_err lo with
      | None => if State_eqb (lo_state lo) stateEOF then Some io_EOF else None
      | Some e => Some e
      end.
Proof.
  intros Hr. unfold Read.
  destruct (limited r) eqn:L; simpl; [|reflexivity].
  destruct Hr as [Hr|Hr]; [discriminate|].
  destruct (n r <=? 0) eqn:E; [apply Z.leb_le in E; lia|reflexivity].
Qed.

Lemma Read_wire r c b bs :
  text_R c = wire bs -> deadlines_ok c -> b <> [] ->
  limited r = false \/ 0 < n r ->
  exists pre post,
    bs = pre ++ post /\
    text_R (cn (Read r c b)) = wire post /\
    deadlines_ok (cn (Read r c b)) /\
    state (rd (Read r c b)) = fst (decode (state r) pre) /\
    chunk (Read r c b) = snd (decode (state r) pre) /\
    limited (rd (Read r c b)) = limited r /\
    n (rd (Read r c b)) =
      (if limited r then n r - Z.of_nat (length (chunk (Read r c b))) else n r) /\
    ((err (Read r c b) = None /\ pre <> [] /\
      state (rd (Read r c b)) <> stateEOF) \/
     (err (Read r c b) = Some io_EOF /\
      state (rd (Read r c b)) = stateEOF) \/
     (err (Read r c b) = Some io_ErrUnexpectedEOF /\ post = [] /\
      state (rd (Read r c b)) <> stateEOF)).
Proof.
  intros Hsrc Hok Hb Hr.
  pose proof (cap_le r b) as Hk. pose proof (cap_pos r b Hb Hr) as Hk0.
  destruct (read_loop_wire bs c (state r) b (cap r b) 0 Hok ltac:(lia) Hk)
    as (pre & post & E & Hs & Hst & Htake & Hn & Hlen & Hdl & Herr & Hprog).
  exists pre, post.
  rewrite Read_unfold by assumption. rewrite Hsrc.
  unfold chunk. cbn [rd cn buf count err state limited n].
  set (lo := read_loop (wire bs) c (state r) b (cap r b) 0) in *.
  simpl in Htake.
  assert (Hcount : length (take (lo_n lo) (lo_buf lo)) = lo_n lo).
  { rewrite length_take. lia. }
  split; [exact E|]. split; [exact Hs|]. split; [exact Hdl|].
  split; [exact Hst|]. split; [exact Htake|]. split; [reflexivity|].
  split. { rewrite Hcount. reflexivity. }
  destruct Herr as [[He Hstop]|(He & Hpost & Hne)].
  - rewrite He. destruct (State_eqb (lo_state lo) stateEOF) eqn:S.
    + right. left. split; [reflexivity|]. apply State_eqb_eq. exact S.
    + left. apply State_eqb_neq in S. split; [reflexivity|].
      split; [|exact S].
      assert (Hs0 : state r <> stateEOF).
      { intros Heq. apply S. rewrite Hst, Heq, decode_EOF. reflexivity. }
      destruct (Hprog Hk0 Hs0) as [Hp|Hp]; [exact Hp|congruence].
  - rewrite He. right. right. auto.
Qed.

(** ** Reading to the end of a source that delivers every byte *)

Lemma received_cons o outs : received (o :: outs) = chunk o ++ received outs.
Proof. reflexivity. Qed.

Lemma ReadToEnd_wire bufs : forall bs r c,
  text_R c = wire bs -> deadlines_ok c ->
  Forall (fun b => b <> []) bufs ->
  (length bs < length bufs)%nat ->
  room_for r (length (snd (decode (state r) bs))) ->
  exists init lst,
    ReadToEnd bufs r c = init ++ [lst] /\
    Forall (fun o => err o = None) init /\
    received init ++ chunk lst = snd (decode (state r) bs) /\
    state (rd lst) = fst (decode (state r) bs) /\
    err lst = Some (if State_eqb (fst (decode (state r) bs)) stateEOF
                    then io_EOF else io_ErrUnexpectedEOF).
Proof.
  induction bufs as [|b bufs IH]; intros bs r c Hsrc Hok Hne Hlen Hroom.
  - simpl in Hlen. lia.
  - inversion Hne as [|? ? Hb Hne']; subst.
    assert (Hr : limited r = false \/ 0 < n r).
    { destruct Hroom as [H|H]; [left; exact H|right; lia]. }
    destruct (Read_wire r c b bs Hsrc Hok Hb Hr)
      as (pre & post & E & Hs & Hdl & Hst & Hch & Hlim & Hn & Hcase).
    subst bs. rewrite decode_app in *. cbn [fst snd] in *.
    cbn [ReadToEnd].
    destruct Hcase as [(He & Hpre & Hnot)|[(He & Heof)|(He & Hpost & Hnot)]].
    + rewrite He.
      destruct (IH post (rd (Read r c b)) (cn (Read r c b)) Hs Hdl Hne')
        as (init & lst & Hrun & Hinit & Hrecv & Hfin & Herr).
      { rewrite length_app in Hlen. simpl in Hlen.
        destruct pre; [congruence|simpl in Hlen; lia]. }
      { unfold room_for in *. rewrite Hlim, Hn, Hst, Hch.
        destruct Hroom as [H|H]; [left; exact H|right].
        rewrite length_app in H.
        destruct (limited r); lia. }
      exists (Read r c b :: init), lst.
      rewrite Hrun, Hst in *.
      split; [reflexivity|]. split; [constructor; assumption|].
      split; [|split; assumption].
      rewrite received_cons, <- app_assoc, Hrecv, Hch. reflexivity.
    + rewrite He. exists [], (Read r c b).
      rewrite <- Hst, Heof, decode_EOF, app_nil_r. simpl.
      repeat split; auto.
    + rewrite He. exists [], (Read r c b). subst post. simpl.
      rewrite app_nil_r, <- Hst.
      apply State_eqb_neq in Hnot. rewrite Hnot.
      repeat split; auto.
Qed.

(** ** The state machine on lines *)

Lemma eqb_neq (a b : byte) : a <> b -> Byte.eqb a b = false.
Proof.
  intros H. destruct (Byte.eqb a b) eqn:E; [|reflexivity].
  apply Byte.byte_dec_bl in E. contradiction.
Qed.

Lemma eqb_refl (a : byte) : Byte.eqb a a = true.
Proof. apply Byte.byte_dec_lb. reflexivity. Qed.

(** Inside a line every byte is stored. *)
Lemma decode_inside l : forall st,
  st = stateData \/ st = stateCR -> is_line l ->
  snd (decode st l) = l /\
  (fst (decode st l) = stateData \/ fst (decode st l) = stateCR).
Proof.
  induction l as [|ch l IH]; intros st Hst Hl.
  - simpl. auto.
  - inversion Hl as [|? ? Hch Hl']; subst.
    assert (Hne : st <> stateEOF) by (destruct Hst; subst; discriminate).
    rewrite decode_cons by exact Hne.
    assert (T : snd (transition st ch) = true /\
                (fst (transition st ch) = stateData \/
                 fst (transition st ch) = stateCR)).
    { destruct Hst; subst; simpl; rewrite (eqb_neq ch LF Hch);
        [destruct (Byte.eqb ch CR)|]; simpl; auto. }
    destruct T as [T1 T2]. rewrite T1. simpl.
    destruct (IH _ T2 Hl') as [H1 H2]. rewrite H1. auto.
Qed.

(** The CRLF that closes a line is stored and leads to the next line. *)
Lemma decode_CRLF_inside st :
  st = stateData \/ st = stateCR -> decode st CRLF = (stateBeginLine, CRLF).
Proof. intros [H|H]; subst; reflexivity. Qed.

Lemma decode_rest_of_line st l :
  st = stateData \/ st = stateCR -> is_line l ->
  decode st (l ++ CRLF) = (stateBeginLine, l ++ CRLF).
Proof.
  intros Hst Hl. rewrite decode_app.
  destruct (decode_inside l st Hst Hl) as [H1 H2].
  rewrite (decode_CRLF_inside _ H2), H1. reflexivity.
Qed.

(** A first byte other than the dot is stored and opens the line. *)
Lemma decode_plain_line ch l :
  ch <> dot -> is_line (ch :: l) ->
  decode stateBeginLine (ch :: l ++ CRLF) = (stateBeginLine, ch :: l ++ CRLF).
Proof.
  intros Hch Hl. inversion Hl; subst.
  rewrite decode_cons by discriminate. simpl transition.
  rewrite (eqb_neq ch dot Hch). cbn [fst snd].
  rewrite decode_rest_of_line by auto. reflexivity.
Qed.

(** After a first dot, which is dropped, a byte that is neither CR nor LF
    is stored, and it alone. *)
Lemma decode_dot_line ch l :
  ch <> CR -> is_line (ch :: l) ->
  decode stateBeginLine (dot :: ch :: l ++ CRLF)
    = (stateBeginLine, ch :: l ++ CRLF).
Proof.
  intros Hcr Hl. inversion Hl as [|? ? Hlf Hl']; subst.
  rewrite decode_cons by discriminate. simpl transition. cbn [fst snd].
  rewrite decode_cons by discriminate. simpl transition.
  rewrite (eqb_neq ch CR Hcr), (eqb_neq ch LF Hlf). cbn [fst snd].
  rewrite decode_rest_of_line by auto. reflexivity.
Qed.

Lemma decode_empty_line :
  decode stateBeginLine CRLF = (stateBeginLine, CRLF).
Proof. reflexivity. Qed.

(** An escaped line decodes to the line. *)
Lemma decode_stuff_line l :
  is_line l ->
  decode stateBeginLine (stuff_line l ++ CRLF) = (stateBeginLine, l ++ CRLF).
Proof.
  intros Hl. destruct l as [|ch l]; [reflexivity|].
  unfold stuff_line. destruct (Byte.eqb ch dot) eqn:E.
  - apply Byte.byte_dec_bl in E. subst ch.
    apply (decode_dot_line dot l); [discriminate|exact Hl].
  - apply Byte.eqb_false in E. apply decode_plain_line; assumption.
Qed.

Lemma decode_terminator : decode stateBeginLine (dot :: CRLF) = (stateEOF, []).
Proof. reflexivity. Qed.

Lemma decode_dot_stuff lines :
  Forall is_line lines ->
  decode stateBeginLine (dot_stuff lines) = (stateEOF, body lines).
Proof.
  unfold dot_stuff, body. induction 1 as [|l lines Hl Hls IH]; [reflexivity|].
  cbn [map concat]. rewrite <- app_assoc, decode_app.
  rewrite decode_stuff_line by exact Hl. cbn [fst snd]. rewrite IH.
  reflexivity.
Qed.

(** Whatever came before, a CRLF leaves the machine at the beginning of a
    line, unless the terminator has been read. *)
Lemma decode_after_CRLF st q :
  fst (decode st (q ++ CRLF)) = stateBeginLine \/
  fst (decode st (q ++ CRLF)) = stateEOF.
Proof.
  rewrite decode_state_app.
  destruct (fst (decode st q)); simpl; auto.
Qed.

Lemma decode_then_terminator p :
  p = [] \/ (exists q, p = q ++ CRLF) ->
  decode stateBeginLine (p ++ dot :: CRLF) = (stateEOF, decoded p).
Proof.
  intros Hp. unfold decoded. rewrite decode_app.
  assert (H : fst (decode stateBeginLine p) = stateBeginLine \/
              fst (decode stateBeginLine p) = stateEOF).
  { destruct Hp as [->|[q ->]]; [left; reflexivity|apply decode_after_CRLF]. }
  destruct H as [H|H]; rewrite H; simpl; rewrite app_nil_r; reflexivity.
Qed.

(** ** Reading whole messages *)

Lemma received_snoc init lst : received (init ++ [lst]) = received init ++ chunk lst.
Proof.
  unfold received. rewrite map_app, concat_app. simpl.
  rewrite app_nil_r. reflexivity.
Qed.

Lemma final_err_snoc init lst : final_err (init ++ [lst]) = err lst.
Proof. unfold final_err. rewrite last_snoc. reflexivity. Qed.

(** Reading to the end hands out what the state machine stores, and ends
    with [io.EOF] when the machine has read the terminator. *)
Lemma ReadToEnd_decoded bs r c bufs :
  state r = stateBeginLine ->
  text_R c = wire bs -> deadlines_ok c ->
  room_for r (length (decoded bs)) ->
  Forall (fun b => b <> []) bufs ->
  (length bs < length bufs)%nat ->
  received (ReadToEnd bufs r c) = decoded bs /\
  final_err (ReadToEnd bufs r c) =
    Some (if State_eqb (fst (decode stateBeginLine bs)) stateEOF
          then io_EOF else io_ErrUnexpectedEOF).
Proof.
  intros Hst Hsrc Hok Hroom Hne Hlen. unfold decoded in *.
  rewrite <- Hst in *.
  destruct (ReadToEnd_wire bufs bs r c Hsrc Hok Hne Hlen Hroom)
    as (init & lst & Hrun & _ & Hrecv & _ & Herr).
  rewrite Hrun, received_snoc, final_err_snoc. auto.
Qed.

(** A call that returns a nil error has not read the terminator. *)
Lemma Read_nil_error_live r c b :
  err (Read r c b) = None -> state (rd (Read r c b)) <> stateEOF.
Proof.
  unfold Read. destruct (limited r && (n r <=? 0)); [discriminate|].
  cbn [err rd state].
  destruct (lo_err (read_loop (text_R c) c (state r) b (cap r b) 0));
    [discriminate|].
  destruct (State_eqb (lo_state (read_loop (text_R c) c (state r) b (cap r b) 0))
                      stateEOF) eqn:S; [discriminate|].
  intros _. apply State_eqb_neq. exact S.
Qed.

(** So in a reading to the end, no call that returns a nil error leaves
    the reader in [stateEOF]. *)
Lemma ReadToEnd_live bufs : forall r c,
  Forall (fun o => err o = None -> state (rd o) <> stateEOF)
         (ReadToEnd bufs r c).
Proof.
  induction bufs as [|b bufs IH]; intros r c; [constructor|].
  cbn [ReadToEnd]. destruct (err (Read r c b)) eqn:He.
  - constructor; [|constructor]. rewrite He. discriminate.
  - constructor; [|apply IH]. intros _. apply Read_nil_error_live, He.
Qed.

(** The machine stores bytes of its input only, in their order. *)
Lemma decode_drops_only bs : forall st, snd (decode st bs) `sublist_of` bs.
Proof.
  induction bs as [|ch bs IH]; intros st; [constructor|].
  destruct (State_eqb st stateEOF) eqn:E.
  - apply State_eqb_eq in E. subst. rewrite decode_EOF. apply sublist_nil_l.
  - apply State_eqb_neq in E. rewrite decode_cons by exact E.
    cbn [snd]. destruct (snd (transition st ch)).
    + apply sublist_skip, IH.
    + apply sublist_cons, IH.
Qed.

(** A CRLF that does not complete the terminator is stored, both bytes. *)
Lemma decode_CRLF_stored st q :
  fst (decode st (q ++ CRLF)) <> stateEOF ->
  snd (decode st (q ++ CRLF)) = snd (decode st q) ++ CRLF.
Proof.
  rewrite decode_app. cbn [fst snd].
  destruct (fst (decode st q)); simpl; intros H;
    try reflexivity; contradiction.
Qed.

(** C1, as amended: when the input is a sequence of bytes [p] that is empty
    or ends in CRLF, followed by the line of a single dot and its CRLF,
    reading until an error hands out exactly what the decoder makes of [p];
    every call before the last returns a nil error and leaves the reader
    short of [stateEOF], so the last call is the one that reads the
    terminator, and it returns its bytes together with [io.EOF].  What is
    handed out is made of bytes of [p] alone, in their order, so no byte of
    the dot line is in it; and when [p] is [q] followed by CRLF and the
    terminator was not read before the end of [p], it is what the decoder
    makes of [q] followed by that CRLF: the CRLF before the dot is handed
    out. *)
Theorem terminator_detection p r c bufs :
  p = [] \/ (exists q, p = q ++ CRLF) ->
  state r = stateBeginLine ->
  text_R c = wire (p ++ dot :: CRLF) ->
  deadlines_ok c ->
  room_for r (length (decoded p)) ->
  Forall (fun b => b <> []) bufs ->
  (length p + 3 < length bufs)%nat ->
  exists init lst,
    ReadToEnd bufs r c = init ++ [lst] /\
    Forall (fun o => err o = None) init /\
    err lst = Some io_EOF /\
    state (rd lst) = stateEOF /\
    received init ++ chunk lst = decoded p /\
    Forall (fun o => state (rd o) <> stateEOF) init /\
    (received init ++ chunk lst) `sublist_of` p /\
    (forall q, p = q ++ CRLF ->
       fst (decode stateBeginLine p) <> stateEOF ->
       received init ++ chunk lst = decoded q ++ CRLF).
Proof.
  intros Hp Hst Hsrc Hok Hroom Hne Hlen.
  pose proof (decode_then_terminator p Hp) as Hdec.
  destruct (ReadToEnd_wire bufs (p ++ dot :: CRLF) r c Hsrc Hok Hne)
    as (init & lst & Hrun & Hinit & Hrecv & Hfin & Herr).
  { rewrite length_app. simpl. lia. }
  { rewrite Hst, Hdec. exact Hroom. }
  rewrite Hst, Hdec in *. simpl in *.
  exists init, lst.
  split; [exact Hrun|]. split; [exact Hinit|]. split; [exact Herr|].
  split; [exact Hfin|]. split; [exact Hrecv|]. split; [|split].
  - pose proof (ReadToEnd_live bufs r c) as Hlive.
    rewrite Hrun in Hlive. apply Forall_app in Hlive as [Hlive _].
    rewrite Forall_forall in Hlive, Hinit. apply Forall_forall.
    intros o Ho. apply Hlive; [exact Ho|]. apply Hinit, Ho.
  - rewrite Hrecv. apply decode_drops_only.
  - intros q Hq Hlive. rewrite Hrecv. unfold decoded. subst p.
    apply decode_CRLF_stored, Hlive.
Qed.

Lemma terminator_detection_witness :
  exists init lst,
    ReadToEnd (buffers 2 7) (newDataReader (conn_of 0 5 (bytes_of "a" ++ CRLF ++ dot :: CRLF)))
      (conn_of 0 5 (bytes_of "a" ++ CRLF ++ dot :: CRLF)) = init ++ [lst] /\
    Forall (fun o => err o = None) init /\
    err lst = Some io_EOF /\
    state (rd lst) = stateEOF /\
    received init ++ chunk lst = decoded (bytes_of "a" ++ CRLF) /\
    Forall (fun o => state (rd o) <> stateEOF) init /\
    (received init ++ chunk lst) `sublist_of` (bytes_of "a" ++ CRLF) /\
    (forall q, bytes_of "a" ++ CRLF = q ++ CRLF ->
       fst (decode stateBeginLine (bytes_of "a" ++ CRLF)) <> stateEOF ->
       received init ++ chunk lst = decoded q ++ CRLF).
Proof.
  apply (terminator_detection (bytes_of "a" ++ CRLF)).
  - right. exists (bytes_of "a"). reflexivity.
  - reflexivity.
  - reflexivity.
  - right. constructor.
  - left. reflexivity.
  - repeat constructor; discriminate.
  - simpl. lia.
Defined.

(** With a buffer that holds the whole message, the one call returns the
    three bytes before the dot line together with [io.EOF]; with buffers of
    two bytes, the call that reads the terminator returns the line feed it
    had still to hand out, together with [io.EOF]. *)
Example last_chunk_with_EOF :
  let c := conn_of 0 0 (bytes_of "a" ++ CRLF ++ dot :: CRLF) in
  map (fun o => (chunk o, err o, state (rd o)))
      (ReadToEnd (buffers 8 3) (newDataReader c) c)
    = [(bytes_of "a" ++ CRLF, Some io_EOF, stateEOF)] /\
  map (fun o => (chunk o, err o, state (rd o)))
      (ReadToEnd (buffers 2 3) (newDataReader c) c)
    = [([x61; CR], None, stateCR); ([LF], Some io_EOF, stateEOF)].
Proof. split; reflexivity. Qed.

(** C1 as stated fails: on the input [a CR LF . CR LF] the decoder hands
    out [a CR LF], so the CR and LF of the marker [CR LF . CR LF] do reach
    the output and the output is not just the [a] before that marker. *)
Lemma terminator_CRLF_is_received :
  let c := conn_of 0 0 (bytes_of "a" ++ CRLF ++ dot :: CRLF) in
  let outs := ReadToEnd (buffers 8 2) (newDataReader c) c in
  received outs = bytes_of "a" ++ CRLF /\
  received outs <> bytes_of "a" /\
  final_err outs = Some io_EOF.
Proof. repeat split; discriminate. Qed.

(** C2: a body made of lines, escaped by dot-stuffing and closed by the
    terminator line, is read back as the body, and the reading ends with
    [io.EOF]. *)
Theorem round_trip lines r c bufs :
  Forall is_line lines ->
  state r = stateBeginLine ->
  text_R c = wire (dot_stuff lines) ->
  deadlines_ok c ->
  room_for r (length (body lines)) ->
  Forall (fun b => b <> []) bufs ->
  (length (dot_stuff lines) < length bufs)%nat ->
  received (ReadToEnd bufs r c) = body lines /\
  final_err (ReadToEnd bufs r c) = Some io_EOF.
Proof.
  intros Hl Hst Hsrc Hok Hroom Hne Hlen.
  pose proof (decode_dot_stuff lines Hl) as Hdec.
  destruct (ReadToEnd_decoded (dot_stuff lines) r c bufs) as [H1 H2]; auto.
  - unfold decoded. rewrite Hdec. exact Hroom.
  - unfold decoded in H1. rewrite Hdec in H1, H2. auto.
Qed.

Lemma round_trip_witness :
  let lines := [bytes_of ".hidden"; []; bytes_of "."; bytes_of "plain"; [CR]] in
  let c := conn_of 100 0 (dot_stuff lines) in
  received (ReadToEnd (buffers 3 40) (newDataReader c) c) = body lines /\
  final_err (ReadToEnd (buffers 3 40) (newDataReader c) c) = Some io_EOF.
Proof.
  apply round_trip.
  - repeat constructor; discriminate.
  - reflexivity.
  - reflexivity.
  - left. reflexivity.
  - right. vm_compute. reflexivity.
  - repeat constructor; discriminate.
  - vm_compute. lia.
Defined.

(** ** Lines that begin with a dot *)

(** A line whose first dot is followed by a byte other than CR and LF is
    handed out without that dot, whatever follows the line. *)
Lemma ReadToEnd_dot_line ch l rest r c bufs :
  ch <> CR -> is_line (ch :: l) ->
  state r = stateBeginLine ->
  text_R c = wire (dot :: ch :: l ++ CRLF ++ rest) ->
  deadlines_ok c ->
  room_for r (length (ch :: l ++ CRLF ++ decoded rest)) ->
  Forall (fun b => b <> []) bufs ->
  (length (dot :: ch :: l ++ CRLF ++ rest) < length bufs)%nat ->
  received (ReadToEnd bufs r c) = ch :: l ++ CRLF ++ decoded rest.
Proof.
  intros Hcr Hl Hst Hsrc Hok Hroom Hne Hlen.
  assert (Hdec : decoded (dot :: ch :: l ++ CRLF ++ rest)
                 = ch :: l ++ CRLF ++ decoded rest).
  { unfold decoded.
    assert (E : dot :: ch :: l ++ CRLF ++ rest
                = (dot :: ch :: l ++ CRLF) ++ rest).
    { simpl. rewrite <- app_assoc. reflexivity. }
    rewrite E, decode_app, (decode_dot_line ch l Hcr Hl). cbn [fst snd].
    simpl. rewrite <- app_assoc. reflexivity. }
  destruct (ReadToEnd_decoded (dot :: ch :: l ++ CRLF ++ rest) r c bufs)
    as [H _]; auto.
  - rewrite Hdec. exact Hroom.
  - rewrite H. exact Hdec.
Qed.

(** C3, as amended: a line that begins with a dot followed by a byte [ch]
    other than CR and LF is handed out without its first dot ([.foo CR LF]
    as [foo CR LF]): in [stateDot] such a byte is stored, it alone, and the
    dot read before it is never stored. *)
Theorem leading_dot_dropped ch l rest r c bufs :
  ch <> CR -> is_line (ch :: l) ->
  state r = stateBeginLine ->
  text_R c = wire (dot :: ch :: l ++ CRLF ++ rest) ->
  deadlines_ok c ->
  room_for r (length (ch :: l ++ CRLF ++ decoded rest)) ->
  Forall (fun b => b <> []) bufs ->
  (length (dot :: ch :: l ++ CRLF ++ rest) < length bufs)%nat ->
  transition stateBeginLine dot = (stateDot, false) /\
  transition stateDot ch = (stateData, true) /\
  decode stateBeginLine [dot; ch] = (stateData, [ch]) /\
  received (ReadToEnd bufs r c) = ch :: l ++ CRLF ++ decoded rest.
Proof.
  intros Hcr Hl Hst Hsrc Hok Hroom Hne Hlen.
  assert (Hlf : ch <> LF) by (inversion Hl; assumption).
  assert (T : transition stateDot ch = (stateData, true)).
  { simpl. rewrite (eqb_neq ch CR Hcr), (eqb_neq ch LF Hlf). reflexivity. }
  split; [reflexivity|]. split; [exact T|]. split.
  - rewrite decode_cons by discriminate.
    change (transition stateBeginLine dot) with (stateDot, false).
    cbn [fst snd]. rewrite decode_cons by discriminate.
    rewrite T. reflexivity.
  - apply ReadToEnd_dot_line; assumption.
Qed.

Lemma leading_dot_dropped_witness :
  let c := conn_of 0 0 (bytes_of ".foo" ++ CRLF ++ dot :: CRLF) in
  transition stateBeginLine dot = (stateDot, false) /\
  transition stateDot x66 = (stateData, true) /\
  decode stateBeginLine [dot; x66] = (stateData, [x66]) /\
  received (ReadToEnd (buffers 4 10) (newDataReader c) c)
    = bytes_of "foo" ++ CRLF.
Proof.
  apply (leading_dot_dropped x66 (bytes_of "oo") (dot :: CRLF)).
  - discriminate.
  - repeat constructor; discriminate.
  - reflexivity.
  - reflexivity.
  - left. reflexivity.
  - left. reflexivity.
  - repeat constructor; discriminate.
  - simpl. lia.
Defined.

(** C3 as stated fails: the line [.foo CR LF] is not handed out unchanged,
    it comes out as [foo CR LF]. *)
Lemma dot_foo_is_not_unchanged :
  let c := conn_of 0 0 (bytes_of ".foo" ++ CRLF ++ dot :: CRLF) in
  let outs := ReadToEnd (buffers 16 2) (newDataReader c) c in
  received outs = bytes_of "foo" ++ CRLF /\
  received outs <> bytes_of ".foo" ++ CRLF /\
  final_err outs = Some io_EOF.
Proof. repeat split; discriminate. Qed.

(** C5: an escaped line, two dots and then the rest of the line, is handed
    out with one dot less ([..foo CR LF] as [.foo CR LF]): the first dot is
    dropped on the way to [stateDot], and the second is stored from
    there. *)
Theorem escaped_dot_line l rest r c bufs :
  is_line l ->
  state r = stateBeginLine ->
  text_R c = wire (dot :: dot :: l ++ CRLF ++ rest) ->
  deadlines_ok c ->
  room_for r (length (dot :: l ++ CRLF ++ decoded rest)) ->
  Forall (fun b => b <> []) bufs ->
  (length (dot :: dot :: l ++ CRLF ++ rest) < length bufs)%nat ->
  transition stateBeginLine dot = (stateDot, false) /\
  transition stateDot dot = (stateData, true) /\
  received (ReadToEnd bufs r c) = dot :: l ++ CRLF ++ decoded rest.
Proof.
  intros Hl Hst Hsrc Hok Hroom Hne Hlen.
  split; [reflexivity|]. split; [reflexivity|].
  apply ReadToEnd_dot_line; try assumption.
  - discriminate.
  - constructor; [discriminate|exact Hl].
Qed.

Lemma escaped_dot_line_witness :
  let c := conn_of 0 0 (bytes_of "..foo" ++ CRLF ++ dot :: CRLF) in
  transition stateBeginLine dot = (stateDot, false) /\
  transition stateDot dot = (stateData, true) /\
  received (ReadToEnd (buffers 4 11) (newDataReader c) c)
    = bytes_of ".foo" ++ CRLF.
Proof.
  apply (escaped_dot_line (bytes_of "foo") (dot :: CRLF)).
  - repeat constructor; discriminate.
  - reflexivity.
  - reflexivity.
  - left. reflexivity.
  - left. reflexivity.
  - repeat constructor; discriminate.
  - simpl. lia.
Defined.

(** ** Error values *)

(** C10: [Temporary] answers [true] exactly when [Code / 100 == 4], that
    is for the codes 400 to 499; the read-timeout error is temporary and
    the size-exceeded error is not. *)
Theorem Temporary_4xx e :
  (Temporary e = true <-> Z.quot (Code e) 100 = 4) /\
  (Temporary e = true <-> 400 <= Code e <= 499) /\
  Temporary ErrDataTimeout = true /\
  Temporary ErrDataTooLarge = false.
Proof.
  unfold Temporary. split; [apply Z.eqb_eq|].
  split; [|split; reflexivity].
  rewrite Z.eqb_eq.
  split; intros Hc; Z.to_euclidean_division_equations; lia.
Qed.

(** ** The loop on any source *)

Lemma transition_store_not_EOF st ch :
  st <> stateEOF -> snd (transition st ch) = true ->
  fst (transition st ch) <> stateEOF.
Proof.
  intros Hst. destruct st; simpl;
    repeat match goal with
           | |- context [Byte.eqb ?a ?b] => destruct (Byte.eqb a b)
           end; simpl; congruence.
Qed.

(** The count stays within the resliced buffer, and the loop reaches
    [stateEOF] only with room left in it. *)
Lemma read_loop_bounds src : forall c st b k cnt,
  (cnt <= k)%nat ->
  (cnt <= lo_n (read_loop src c st b k cnt) <= k)%nat /\
  (lo_state (read_loop src c st b k cnt) = stateEOF ->
   (st = stateEOF /\ lo_n (read_loop src c st b k cnt) = cnt) \/
   (lo_n (read_loop src c st b k cnt) < k)%nat).
Proof.
  induction src as [|x src IH]; intros c st b k cnt Hcnt; simpl;
    destruct ((cnt <? k)%nat && negb (State_eqb st stateEOF)) eqn:C;
    try (simpl; split; [lia|auto]; fail);
    apply andb_true_iff in C as [C1 C2];
    apply Nat.ltb_lt in C1; apply negb_true_iff, State_eqb_neq in C2;
    destruct (arm_deadline c) as [c1 [e|]]; simpl;
    try (split; [lia|congruence]).
  destruct x as [ch|e].
  - pose proof (transition_store_not_EOF st ch C2) as Hstore.
    destruct (transition st ch) as [st' [|]]; simpl in Hstore.
    + destruct (IH (log_event c1 (EvReadByte (inl ch))) st'
                  (<[cnt := ch]> b) k (S cnt)) as [H1 H2]; [lia|].
      split; [lia|]. intros Heof.
      destruct (H2 Heof) as [[H3 _]|H3]; [|right; exact H3].
      exfalso. apply Hstore; auto.
    + destruct (IH (log_event c1 (EvReadByte (inl ch))) st' b k cnt)
        as [H1 H2]; [lia|].
      split; [lia|]. intros Heof.
      destruct (H2 Heof) as [[_ H3]|H3]; right; lia.
  - destruct (read_failure _ e) as [c2 e']. simpl. split; [lia|congruence].
Qed.

Lemma log_lines_app xs ys : log_lines (xs ++ ys) = log_lines xs ++ log_lines ys.
Proof.
  induction xs as [|[d res|res|f a] xs IH]; simpl; rewrite ?IH; reflexivity.
Qed.

(** What arming the deadline adds to the record. *)
Lemma arm_deadline_events c :
  exists evs,
    events (fst (arm_deadline c)) = events c ++ evs /\
    log_lines evs = [] /\
    (forall e, ~ In (EvReadByte (inr e)) evs) /\
    (ReadTimeout c <> 0 -> snd (arm_deadline c) = None ->
     forall tl, armed (ReadTimeout c) false (evs ++ tl)
                = armed (ReadTimeout c) true tl) /\
    (ReadTimeout c <> 0 -> snd (arm_deadline c) <> None ->
     armed (ReadTimeout c) false evs = true).
Proof.
  unfold arm_deadline. destruct (ReadTimeout c =? 0) eqn:E.
  - apply Z.eqb_eq in E. exists []. simpl. rewrite app_nil_r.
    repeat split; auto; intros; contradiction.
  - unfold SetReadDeadline.
    destruct (deadline_results c) as [|res rest]; simpl.
    + exists [EvSetReadDeadline (ReadTimeout c) None]. simpl.
      rewrite Z.eqb_refl.
      repeat split; auto; intros; try contradiction. intuition discriminate.
    + exists [EvSetReadDeadline (ReadTimeout c) res]. simpl.
      destruct res as [e|]; simpl; rewrite ?Z.eqb_refl;
        repeat split; auto; intros; try contradiction; try discriminate;
        intuition discriminate.
Qed.

Lemma translate_eq c e : snd (read_failure c e) = translate e.
Proof. unfold translate, read_failure. destruct e as [| | |[|]|]; reflexivity. Qed.

Lemma is_net_timeout_converted e :
  is_net_timeout (if is_io_EOF e then io_ErrUnexpectedEOF else e)
  = is_net_timeout e.
Proof. destruct e; reflexivity. Qed.

(** What a failed [ReadByte] adds to the record after its own entry. *)
Lemma read_failure_events c e :
  events (fst (read_failure c e)) =
    events c ++
    (if is_net_timeout e then [EvPrintf "data read timeout: %w" e] else []).
Proof.
  unfold read_failure. rewrite is_net_timeout_converted.
  destruct (is_net_timeout e) eqn:T; simpl.
  - destruct e; try discriminate. reflexivity.
  - rewrite app_nil_r. reflexivity.
Qed.

(** The record of one run of the loop: a deadline before every read when
    one is configured, and at most one failed read, the last, which
    decides the error and whether a line is logged. *)
Lemma read_loop_events src : forall c st b k cnt,
  exists evs,
    events (lo_conn (read_loop src c st b k cnt)) = events c ++ evs /\
    (ReadTimeout c <> 0 -> armed (ReadTimeout c) false evs = true) /\
    (forall e, In (EvReadByte (inr e)) evs ->
       lo_err (read_loop src c st b k cnt) = Some (translate e) /\
       lo_state (read_loop src c st b k cnt) <> stateEOF /\
       log_lines evs =
         if is_net_timeout e then [("data read timeout: %w"%string, e)] else []) /\
    ((forall e, ~ In (EvReadByte (inr e)) evs) -> log_lines evs = []).
Proof.
  induction src as [|x src IH]; intros c st b k cnt; simpl;
    destruct ((cnt <? k)%nat && negb (State_eqb st stateEOF)) eqn:C;
    try (exists []; simpl; rewrite app_nil_r;
         repeat split; auto; intros; contradiction);
    apply andb_true_iff in C as [_ C2];
    apply negb_true_iff, State_eqb_neq in C2;
    destruct (arm_deadline_events c) as (ea & Hea & Hlog & Hnr & Harm & Hfail);
    destruct (arm_deadline_frame c) as (HT & _);
    destruct (arm_deadline c) as [c1 [e|]]; simpl in *;
    try (exists ea; split; [assumption|]; split;
         [intros H; apply Hfail; [exact H|discriminate]|]; split;
         [intros e0 H0; destruct (Hnr e0 H0)|intros _; exact Hlog]).
  - exists (ea ++ [EvReadByte (inr io_EOF)]).
    rewrite Hea, log_lines_app, Hlog, <- app_assoc. simpl.
    split; [reflexivity|]. split.
    { intros H. rewrite (Harm H eq_refl). reflexivity. }
    split.
    { intros e0 H0. apply in_app_or in H0 as [H0|[H0|[]]];
        [destruct (Hnr e0 H0)|]. inversion H0; subst. auto. }
    reflexivity.
  - destruct x as [ch|e].
    + assert (Hrec : forall st' b' cnt',
        exists evs,
          events (lo_conn (read_loop src (log_event c1 (EvReadByte (inl ch)))
                             st' b' k cnt')) = events c ++ evs /\
          (ReadTimeout c <> 0 -> armed (ReadTimeout c) false evs = true) /\
          (forall e, In (EvReadByte (inr e)) evs ->
             lo_err (read_loop src (log_event c1 (EvReadByte (inl ch)))
                       st' b' k cnt') = Some (translate e) /\
             lo_state (read_loop src (log_event c1 (EvReadByte (inl ch)))
                         st' b' k cnt') <> stateEOF /\
             log_lines evs =
               if is_net_timeout e
               then [("data read timeout: %w"%string, e)] else []) /\
          ((forall e, ~ In (EvReadByte (inr e)) evs) -> log_lines evs = [])).
      { intros st' b' cnt'.
        destruct (IH (log_event c1 (EvReadByte (inl ch))) st' b' k cnt')
          as (evs & He & Ha & Hf & Hn).
        simpl in He, Ha. rewrite HT in Ha.
        exists (ea ++ EvReadByte (inl ch) :: evs).
        rewrite He, Hea, <- !app_assoc. simpl.
        split; [reflexivity|]. split.
        { intros H. rewrite (Harm H eq_refl). simpl. auto. }
        assert (Hin : forall e0, In (EvReadByte (inr e0))
                                    (ea ++ EvReadByte (inl ch) :: evs) ->
                                 In (EvReadByte (inr e0)) evs).
        { intros e0 H0. apply in_app_or in H0 as [H0|[H0|H0]];
            [destruct (Hnr e0 H0)|discriminate|exact H0]. }
        rewrite log_lines_app, Hlog. simpl. split.
        - intros e0 H0. apply Hf, Hin, H0.
        - intros H. apply Hn. intros e0 H0. apply (H e0).
          apply in_or_app. right. right. exact H0. }
      destruct (transition st ch) as [st' [|]]; apply Hrec.
    + pose proof (read_failure_events (log_event c1 (EvReadByte (inr e))) e)
        as Hev.
      pose proof (translate_eq (log_event c1 (EvReadByte (inr e))) e) as Htr.
      destruct (read_failure _ e) as [c2 e']. simpl in *. subst e'.
      exists (ea ++ EvReadByte (inr e) ::
                (if is_net_timeout e
                 then [EvPrintf "data read timeout: %w" e] else [])).
      rewrite Hev, Hea, <- !app_assoc. simpl.
      split; [reflexivity|]. split.
      { intros H. rewrite (Harm H eq_refl). simpl.
        destruct (is_net_timeout e); reflexivity. }
      rewrite log_lines_app, Hlog. simpl. split.
      * intros e0 H0. apply in_app_or in H0 as [H0|[H0|H0]].
        -- destruct (Hnr e0 H0).
        -- inversion H0; subst.
           repeat split; auto. destruct (is_net_timeout e0); reflexivity.
        -- destruct (is_net_timeout e); [destruct H0 as [H0|[]]|destruct H0].
           discriminate.
      * intros H. exfalso. apply (H e). apply in_or_app. right. left.
        reflexivity.
Qed.

(** ** The record of one call *)

Lemma Read_events r c b :
  exists evs,
    events (cn (Read r c b)) = events c ++ evs /\
    (ReadTimeout c <> 0 -> armed (ReadTimeout c) false evs = true) /\
    (forall e, In (EvReadByte (inr e)) evs ->
       err (Read r c b) = Some (translate e) /\
       state (rd (Read r c b)) <> stateEOF /\
       log_lines evs =
         if is_net_timeout e then [("data read timeout: %w"%string, e)] else []) /\
    ((forall e, ~ In (EvReadByte (inr e)) evs) -> log_lines evs = []).
Proof.
  unfold Read. destruct (limited r && (n r <=? 0)).
  - exists []. simpl. rewrite app_nil_r.
    repeat split; auto; intros; contradiction.
  - destruct (read_loop_events (text_R c) c (state r) b (cap r b) 0)
      as (evs & He & Ha & Hf & Hn).
    exists evs. simpl. split; [exact He|]. split; [exact Ha|].
    split; [|exact Hn].
    intros e Hin. destruct (Hf e Hin) as (H1 & H2 & H3).
    rewrite H1. auto.
Qed.

(** C6: when a [ReadByte] of the call fails with a [net.Error] whose
    [Timeout()] is true, the call returns [ErrDataTimeout] (451, 4.4.2) and
    not the error of the source, and it writes exactly one line to the
    error log, for that error; a call whose [ReadByte]s fail otherwise, or
    do not fail, logs nothing; and when [ReadTimeout] is not zero, every
    [ReadByte] of the call comes right after a [SetReadDeadline] of that
    duration from now. *)
Theorem timeout_conversion r c b :
  exists evs,
    events (cn (Read r c b)) = events c ++ evs /\
    (forall e, In (EvReadByte (inr e)) evs -> is_net_timeout e = true ->
       err (Read r c b) = Some (smtp_error ErrDataTimeout) /\
       err (Read r c b) <> Some e /\
       Code ErrDataTimeout = 451 /\ Enhanced ErrDataTimeout = (4, 4, 2) /\
       log_lines evs = [("data read timeout: %w"%string, e)]) /\
    (forall e, In (EvReadByte (inr e)) evs -> is_net_timeout e = false ->
       log_lines evs = []) /\
    ((forall e, ~ In (EvReadByte (inr e)) evs) -> log_lines evs = []) /\
    (ReadTimeout c <> 0 -> armed (ReadTimeout c) false evs = true).
Proof.
  destruct (Read_events r c b) as (evs & He & Ha & Hf & Hn).
  exists evs. split; [exact He|]. split; [|split; [|split; [exact Hn|exact Ha]]].
  - intros e Hin Ht. destruct (Hf e Hin) as (H1 & _ & H3).
    rewrite Ht in H3. rewrite H1. unfold translate. rewrite Ht.
    destruct e; try discriminate. simpl. repeat split; auto.
  - intros e Hin Ht. destruct (Hf e Hin) as (_ & _ & H3).
    rewrite Ht in H3. exact H3.
Qed.

Lemma timeout_conversion_witness :
  let c := mkConn 0 30 [inl x61; inr (net_Error true 7); inl x62] [] [] in
  let o := Read (newDataReader c) c (repeat x00 8) in
  err o = Some (smtp_error ErrDataTimeout) /\
  count o = 1%nat /\
  events (cn o) =
    [EvSetReadDeadline 30 None; EvReadByte (inl x61);
     EvSetReadDeadline 30 None; EvReadByte (inr (net_Error true 7));
     EvPrintf "data read timeout: %w" (net_Error true 7)] /\
  exists evs,
    events (cn o) = events c ++ evs /\
    (forall e, In (EvReadByte (inr e)) evs -> is_net_timeout e = true ->
       err o = Some (smtp_error ErrDataTimeout) /\
       err o <> Some e /\
       Code ErrDataTimeout = 451 /\ Enhanced ErrDataTimeout = (4, 4, 2) /\
       log_lines evs = [("data read timeout: %w"%string, e)]) /\
    (forall e, In (EvReadByte (inr e)) evs -> is_net_timeout e = false ->
       log_lines evs = []) /\
    ((forall e, ~ In (EvReadByte (inr e)) evs) -> log_lines evs = []) /\
    (ReadTimeout c <> 0 -> armed (ReadTimeout c) false evs = true).
Proof.
  intros c o. split; [reflexivity|]. split; [reflexivity|].
  split; [reflexivity|]. apply (timeout_conversion (newDataReader c) c).
Defined.

(** C7: when a [ReadByte] of the call fails, the decoder has not reached
    [stateEOF]; if the failure is [io.EOF] the call returns
    [io.ErrUnexpectedEOF], and if it is any error other than [io.EOF] and a
    [net.Error] timeout, the call returns that error as it is. *)
Theorem premature_end r c b :
  exists evs,
    events (cn (Read r c b)) = events c ++ evs /\
    forall e, In (EvReadByte (inr e)) evs ->
      state (rd (Read r c b)) <> stateEOF /\
      err (Read r c b) <> Some io_EOF /\
      (e = io_EOF -> err (Read r c b) = Some io_ErrUnexpectedEOF) /\
      (e <> io_EOF -> is_net_timeout e = false -> err (Read r c b) = Some e).
Proof.
  destruct (Read_events r c b) as (evs & He & _ & Hf & _).
  exists evs. split; [exact He|].
  intros e Hin. destruct (Hf e Hin) as (H1 & H2 & _).
  rewrite H1. split; [exact H2|]. unfold translate.
  split; [|split].
  - destruct e as [| | |[|]|]; discriminate.
  - intros ->. reflexivity.
  - intros Hne Ht. rewrite Ht. destruct e; try reflexivity. contradiction.
Qed.

Lemma premature_end_witness :
  let c := conn_of 0 0 (bytes_of "ab") in
  let c' := mkConn 0 0 [inl x61; inr (other_error 3)] [] [] in
  let o := Read (newDataReader c) c (repeat x00 8) in
  let o' := Read (newDataReader c') c' (repeat x00 8) in
  (chunk o = bytes_of "ab" /\ err o = Some io_ErrUnexpectedEOF) /\
  (chunk o' = bytes_of "a" /\ err o' = Some (other_error 3)) /\
  exists evs,
    events (cn o) = events c ++ evs /\
    forall e, In (EvReadByte (inr e)) evs ->
      state (rd o) <> stateEOF /\
      err o <> Some io_EOF /\
      (e = io_EOF -> err o = Some io_ErrUnexpectedEOF) /\
      (e <> io_EOF -> is_net_timeout e = false -> err o = Some e).
Proof.
  intros c c' o o'. split; [split; reflexivity|]. split; [split; reflexivity|].
  apply (premature_end (newDataReader c) c).
Defined.

(** ** The size limit and the end of the stream *)

Lemma reader_eta r : mkReader (state r) (limited r) (n r) = r.
Proof. destruct r; reflexivity. Qed.

Lemma set_text_R_same c : set_text_R c (text_R c) = c.
Proof. destruct c; reflexivity. Qed.

(** In [stateEOF] the loop does not run. *)
Lemma read_loop_at_EOF src c b k cnt :
  read_loop src c stateEOF b k cnt = mkLoopOut src c stateEOF b cnt None.
Proof. destruct src; simpl; rewrite andb_false_r; reflexivity. Qed.

Lemma Read_too_large r c b :
  limited r = true -> n r <= 0 ->
  Read r c b = mkReadOut r c b 0 (Some (smtp_error ErrDataTooLarge)).
Proof.
  intros Hl Hn. unfold Read. rewrite Hl.
  apply Z.leb_le in Hn. rewrite Hn. reflexivity.
Qed.

Lemma ReadCalls_too_large more : forall r c,
  limited r = true -> n r <= 0 ->
  ReadCalls more r c =
    map (fun b => mkReadOut r c b 0 (Some (smtp_error ErrDataTooLarge))) more.
Proof.
  induction more as [|b more IH]; intros r c Hl Hn; [reflexivity|].
  cbn [ReadCalls map]. rewrite (Read_too_large r c b Hl Hn).
  cbn [rd cn]. rewrite (IH r c Hl Hn). reflexivity.
Qed.

Lemma Read_limited_same r c b : limited (rd (Read r c b)) = limited r.
Proof. unfold Read. destruct (limited r && (n r <=? 0)); reflexivity. Qed.

(** One call of a limited reader: the count is within the buffer and
    within what remains, and comes off what remains. *)
Lemma Read_limited r c b :
  limited r = true -> 0 <= n r ->
  n (rd (Read r c b)) = n r - Z.of_nat (count (Read r c b)) /\
  Z.of_nat (count (Read r c b)) <= Z.min (Z.of_nat (length b)) (n r) /\
  (state (rd (Read r c b)) = stateEOF -> 0 < n r ->
   (state r = stateEOF /\ count (Read r c b) = 0%nat) \/
   Z.of_nat (count (Read r c b)) < n r).
Proof.
  intros Hl Hn. destruct (Z.le_gt_cases (n r) 0) as [H0|H0].
  - rewrite (Read_too_large r c b Hl H0). simpl. repeat split; try lia.
  - rewrite Read_unfold by (right; lia). cbn [rd cn count n state].
    rewrite Hl.
    pose proof (cap_le r b) as Hk.
    pose proof (cap_limit r b Hl ltac:(lia)) as Hk'.
    destruct (read_loop_bounds (text_R c) c (state r) b (cap r b) 0
                ltac:(lia)) as [H1 H2].
    repeat split; try lia.
    intros Heof _. destruct (H2 Heof) as [[H3 H4]|H3]; [left; auto|right; lia].
Qed.

Lemma newDataReader_inv c : reader_inv (newDataReader c).
Proof.
  unfold newDataReader, reader_inv.
  destruct (0 <? MaxMessageBytes c) eqn:E; simpl; [|discriminate].
  apply Z.ltb_lt in E. intros _. split; [lia|discriminate].
Qed.

Lemma Read_inv r c b : reader_inv r -> reader_inv (rd (Read r c b)).
Proof.
  unfold reader_inv. intros Hinv Hl. rewrite Read_limited_same in Hl.
  destruct (Hinv Hl) as [H0 Heof].
  destruct (Read_limited r c b Hl H0) as (H1 & H2 & H3).
  rewrite H1. split; [lia|]. intros Hst.
  destruct (Z.le_gt_cases (n r) 0) as [Hz|Hz].
  - rewrite (Read_too_large r c b Hl Hz) in Hst. simpl in Hst.
    specialize (Heof Hst). lia.
  - destruct (H3 Hst Hz) as [[H4 H5]|H4]; lia.
Qed.

Lemma after_calls_inv bufs : forall r c,
  reader_inv r -> reader_inv (fst (after_calls bufs r c)).
Proof.
  induction bufs as [|b bufs IH]; intros r c Hinv; [exact Hinv|].
  cbn [after_calls]. apply IH, Read_inv, Hinv.
Qed.

Lemma Read_at_EOF r c b :
  reader_inv r -> state r = stateEOF ->
  Read r c b = mkReadOut r c b 0 (Some io_EOF).
Proof.
  intros Hinv Hst.
  assert (Hr : limited r = false \/ 0 < n r).
  { destruct (limited r) eqn:Hl; [right|left; reflexivity].
    destruct (Hinv Hl) as [_ H]. exact (H Hst). }
  rewrite Read_unfold by exact Hr. rewrite Hst, read_loop_at_EOF.
  cbn [lo_state lo_n lo_conn lo_src lo_buf lo_err State_eqb].
  rewrite set_text_R_same.
  replace (if limited r then n r - Z.of_nat 0 else n r) with (n r)
    by (destruct (limited r); simpl; lia).
  rewrite <- Hst, reader_eta. reflexivity.
Qed.

Lemma ReadCalls_at_EOF more : forall r c,
  reader_inv r -> state r = stateEOF ->
  ReadCalls more r c = map (fun b => mkReadOut r c b 0 (Some io_EOF)) more.
Proof.
  induction more as [|b more IH]; intros r c Hinv Hst; [reflexivity|].
  cbn [ReadCalls map]. rewrite (Read_at_EOF r c b Hinv Hst).
  cbn [rd cn]. rewrite (IH r c Hinv Hst). reflexivity.
Qed.

(** A limited reader stays limited, and what remains is what it had less
    the counts of the calls. *)
Lemma after_calls_limited bufs : forall r c,
  limited r = true -> 0 <= n r ->
  limited (fst (after_calls bufs r c)) = true /\
  n (fst (after_calls bufs r c)) = n r - total (ReadCalls bufs r c) /\
  0 <= n (fst (after_calls bufs r c)).
Proof.
  induction bufs as [|b bufs IH]; intros r c Hl Hn.
  - simpl. repeat split; auto; lia.
  - cbn [after_calls ReadCalls]. unfold total. cbn [foldr].
    fold (total (ReadCalls bufs (rd (Read r c b)) (cn (Read r c b)))).
    destruct (Read_limited r c b Hl Hn) as (H1 & H2 & _).
    destruct (IH (rd (Read r c b)) (cn (Read r c b))) as (H3 & H4 & H5).
    { rewrite Read_limited_same. exact Hl. }
    { lia. }
    repeat split; auto; lia.
Qed.

(** C9: a limited reader whose count of remaining bytes is zero or less
    answers [(0, ErrDataTooLarge)] whatever its state, [stateEOF]
    included, and whatever the buffer, the empty one included; the reader,
    the buffer and the connection (its source and the record of its
    calls) are as before the call. *)
Theorem size_check_first r c b :
  limited r = true -> n r <= 0 ->
  Read r c b = mkReadOut r c b 0 (Some (smtp_error ErrDataTooLarge)) /\
  text_R (cn (Read r c b)) = text_R c /\
  events (cn (Read r c b)) = events c.
Proof.
  intros Hl Hn. rewrite (Read_too_large r c b Hl Hn). auto.
Qed.

Lemma size_check_first_witness :
  let c := conn_of 4 0 (bytes_of "more") in
  let r := mkReader stateEOF true 0 in
  Read r c [] = mkReadOut r c [] 0 (Some (smtp_error ErrDataTooLarge)) /\
  text_R (cn (Read r c [])) = text_R c /\
  events (cn (Read r c [])) = events c.
Proof.
  apply (size_check_first (mkReader stateEOF true 0)).
  - reflexivity.
  - simpl. lia.
Defined.

(** C8: once a reader made by [newDataReader] has reached [stateEOF],
    whatever calls brought it there, every further call returns zero bytes
    and [io.EOF] and leaves the reader, the buffer and the connection (its
    source and the record of its calls) as they were. *)
Theorem idempotent_termination c0 bufs more :
  state (fst (after_calls bufs (newDataReader c0) c0)) = stateEOF ->
  ReadCalls more (fst (after_calls bufs (newDataReader c0) c0))
                 (snd (after_calls bufs (newDataReader c0) c0))
  = map (fun b => mkReadOut (fst (after_calls bufs (newDataReader c0) c0))
                            (snd (after_calls bufs (newDataReader c0) c0))
                            b 0 (Some io_EOF)) more.
Proof.
  intros Hst. apply ReadCalls_at_EOF; [|exact Hst].
  apply after_calls_inv, newDataReader_inv.
Qed.

Lemma idempotent_termination_witness :
  let c0 := conn_of 10 5 (bytes_of "ab" ++ CRLF ++ dot :: CRLF ++ bytes_of "next") in
  let r := fst (after_calls (buffers 2 3) (newDataReader c0) c0) in
  let c := snd (after_calls (buffers 2 3) (newDataReader c0) c0) in
  state r = stateEOF /\
  ReadCalls [repeat x00 4; []] r c =
    [mkReadOut r c (repeat x00 4) 0 (Some io_EOF);
     mkReadOut r c [] 0 (Some io_EOF)].
Proof.
  split; [reflexivity|].
  apply (idempotent_termination
           (conn_of 10 5 (bytes_of "ab" ++ CRLF ++ dot :: CRLF ++ bytes_of "next"))
           (buffers 2 3) [repeat x00 4; []]).
  reflexivity.
Defined.

Lemma received_le_total outs : Z.of_nat (length (received outs)) <= total outs.
Proof.
  induction outs as [|o outs IH]; [simpl; lia|].
  rewrite received_cons, length_app. unfold total in *. cbn [foldr].
  unfold chunk at 1. rewrite length_take. lia.
Qed.

(** C4: for a reader made with a maximum [m > 0] and any calls made on it,
    the counts of those calls add up to [m] less what remains, so to [m]
    at most, and so do the bytes handed out; a further call returns at
    most [min(len(b), remaining)] bytes and never raises what remains; and
    once nothing remains, every further call returns [(0, ErrDataTooLarge)]
    (552, 5.3.4) and leaves the reader and the connection, its source
    included, as they were. *)
Theorem size_enforcement c0 bufs b :
  0 < MaxMessageBytes c0 ->
  let r := fst (after_calls bufs (newDataReader c0) c0) in
  let c := snd (after_calls bufs (newDataReader c0) c0) in
  let calls := ReadCalls bufs (newDataReader c0) c0 in
  limited r = true /\
  n r = MaxMessageBytes c0 - total calls /\
  total calls <= MaxMessageBytes c0 /\
  Z.of_nat (length (received calls)) <= MaxMessageBytes c0 /\
  Z.of_nat (count (Read r c b)) <= Z.min (Z.of_nat (length b)) (n r) /\
  n (rd (Read r c b)) <= n r /\
  (n r <= 0 ->
   Code ErrDataTooLarge = 552 /\ Enhanced ErrDataTooLarge = (5, 3, 4) /\
   forall more,
     ReadCalls more r c =
       map (fun b' => mkReadOut r c b' 0 (Some (smtp_error ErrDataTooLarge)))
           more).
Proof.
  intros Hm r c calls.
  assert (Hnew : limited (newDataReader c0) = true /\
                 n (newDataReader c0) = MaxMessageBytes c0).
  { unfold newDataReader. apply Z.ltb_lt in Hm. rewrite Hm. auto. }
  destruct Hnew as [Hl0 Hn0].
  destruct (after_calls_limited bufs (newDataReader c0) c0 Hl0 ltac:(lia))
    as (Hl & Hn & Hpos).
  fold r in Hl, Hn, Hpos. fold calls in Hn. rewrite Hn0 in Hn.
  destruct (Read_limited r c b Hl Hpos) as (H1 & H2 & _).
  pose proof (received_le_total calls) as Hrecv.
  split; [exact Hl|]. split; [exact Hn|]. split; [lia|]. split; [lia|].
  split; [exact H2|]. split; [lia|].
  intros Hz. split; [reflexivity|]. split; [reflexivity|].
  intros more. apply ReadCalls_too_large; assumption.
Qed.

Lemma size_enforcement_witness :
  let c0 := conn_of 3 0 (bytes_of "abcdef" ++ CRLF ++ dot :: CRLF) in
  let r := fst (after_calls (buffers 2 2) (newDataReader c0) c0) in
  let c := snd (after_calls (buffers 2 2) (newDataReader c0) c0) in
  let calls := ReadCalls (buffers 2 2) (newDataReader c0) c0 in
  limited r = true /\
  n r = MaxMessageBytes c0 - total calls /\
  total calls <= MaxMessageBytes c0 /\
  Z.of_nat (length (received calls)) <= MaxMessageBytes c0 /\
  Z.of_nat (count (Read r c (repeat x00 2))) <=
    Z.min (Z.of_nat (length (repeat x00 2))) (n r) /\
  n (rd (Read r c (repeat x00 2))) <= n r /\
  (n r <= 0 ->
   Code ErrDataTooLarge = 552 /\ Enhanced ErrDataTooLarge = (5, 3, 4) /\
   forall more,
     ReadCalls more r c =
       map (fun b' => mkReadOut r c b' 0 (Some (smtp_error ErrDataTooLarge)))
           more).
Proof.
  apply (size_enforcement
           (conn_of 3 0 (bytes_of "abcdef" ++ CRLF ++ dot :: CRLF))
           (buffers 2 2) (repeat x00 2)).
  simpl. lia.
Defined.

(** With a maximum of three bytes, two calls with buffers of two bytes
    return two bytes and then one; nothing remains, and the third call
    fails without reading. *)
Example three_byte_limit_run :
  let c0 := conn_of 3 0 (bytes_of "abcdef" ++ CRLF ++ dot :: CRLF) in
  map (fun o => (chunk o, err o, n (rd o), length (text_R (cn o))))
      (ReadCalls (buffers 2 3) (newDataReader c0) c0)
  = [(bytes_of "ab", None, 1, 9%nat);
     (bytes_of "c", None, 0, 8%nat);
     ([], Some (smtp_error ErrDataTooLarge), 0, 8%nat)].
Proof. reflexivity. Qed.

(** * Further properties of [Read] *)

(** ** The caller's buffer and the source, on any source *)

(** With no room left in the buffer the loop does not run. *)
Lemma read_loop_full src c st b k cnt :
  (k <= cnt)%nat -> read_loop src c st b k cnt = mkLoopOut src c st b cnt None.
Proof.
  intros H. apply Nat.ltb_ge in H. destruct src; simpl; rewrite H; reflexivity.
Qed.

(** The loop keeps the length of the buffer and the bytes from the final
    count on. *)
Lemma read_loop_buffer src : forall c st b k cnt,
  (cnt <= k)%nat ->
  length (lo_buf (read_loop src c st b k cnt)) = length b /\
  drop (lo_n (read_loop src c st b k cnt)) (lo_buf (read_loop src c st b k cnt))
    = drop (lo_n (read_loop src c st b k cnt)) b.
Proof.
  induction src as [|x src IH]; intros c st b k cnt Hcnt; simpl;
    destruct ((cnt <? k)%nat && negb (State_eqb st stateEOF)) eqn:C;
    try (simpl; auto; fail);
    apply andb_true_iff in C as [C1 _]; apply Nat.ltb_lt in C1;
    destruct (arm_deadline c) as [c1 [e|]]; simpl; auto.
  destruct x as [ch|e].
  - destruct (transition st ch) as [st' [|]].
    + destruct (IH (log_event c1 (EvReadByte (inl ch))) st'
                  (<[cnt := ch]> b) k (S cnt) ltac:(lia)) as [H1 H2].
      destruct (read_loop_bounds src (log_event c1 (EvReadByte (inl ch))) st'
                  (<[cnt := ch]> b) k (S cnt) ltac:(lia)) as [H3 _].
      rewrite H1, H2, length_insert. split; [reflexivity|].
      apply drop_insert_lt. lia.
    + apply IH. lia.
  - destruct (read_failure _ e) as [c2 e']. simpl. auto.
Qed.

(** The loop takes entries off the front of the source, at least one for
    every byte it stores. *)
Lemma read_loop_consumed src : forall c st b k cnt,
  exists used,
    src = used ++ lo_src (read_loop src c st b k cnt) /\
    (lo_n (read_loop src c st b k cnt) <= cnt + length used)%nat.
Proof.
  induction src as [|x src IH]; intros c st b k cnt; simpl;
    destruct ((cnt <? k)%nat && negb (State_eqb st stateEOF));
    try (exists []; simpl; split; [reflexivity|lia]);
    destruct (arm_deadline c) as [c1 [e|]]; simpl;
    try (exists []; simpl; split; [reflexivity|lia]).
  destruct x as [ch|e].
  - destruct (transition st ch) as [st' [|]];
      match goal with
      | |- context [read_loop src ?c' ?s' ?b' ?k' ?n'] =>
          destruct (IH c' s' b' k' n') as (used & E & Hn)
      end; exists (inl ch :: used); simpl; split; try lia;
      rewrite <- E; reflexivity.
  - destruct (read_failure _ e) as [c2 e']. simpl.
    exists [inr e]. simpl. split; [reflexivity|lia].
Qed.

(** The loop ends without an error only with the buffer filled or the
    terminator read, and with an error only while there was room and the
    terminator was not read. *)
Lemma read_loop_stop src : forall c st b k cnt,
  (cnt <= k)%nat ->
  (lo_err (read_loop src c st b k cnt) = None ->
   lo_n (read_loop src c st b k cnt) = k \/
   lo_state (read_loop src c st b k cnt) = stateEOF) /\
  (lo_err (read_loop src c st b k cnt) <> None ->
   (lo_n (read_loop src c st b k cnt) < k)%nat /\
   lo_state (read_loop src c st b k cnt) <> stateEOF).
Proof.
  induction src as [|x src IH]; intros c st b k cnt Hcnt; simpl;
    destruct ((cnt <? k)%nat && negb (State_eqb st stateEOF)) eqn:C;
    try (apply andb_false_iff in C; simpl; split; [intros _|congruence];
         destruct C as [C|C];
         [left; apply Nat.ltb_ge in C; lia
         |right; apply negb_false_iff, State_eqb_eq in C; exact C]);
    apply andb_true_iff in C as [C1 C2];
    apply Nat.ltb_lt in C1; apply negb_true_iff, State_eqb_neq in C2;
    destruct (arm_deadline c) as [c1 [e|]]; simpl;
    try (split; [discriminate|auto]).
  destruct x as [ch|e].
  - destruct (transition st ch) as [st' [|]]; apply IH; lia.
  - destruct (read_failure _ e) as [c2 e']. simpl. split; [discriminate|auto].
Qed.

Lemma cap_nil r : limited r = false \/ 0 < n r -> cap r [] = 0%nat.
Proof.
  intros Hr. unfold cap. change (Z.of_nat (length (@nil byte))) with 0.
  destruct (limited r); simpl; [|reflexivity].
  destruct Hr as [Hr|Hr]; [discriminate|].
  destruct (n r <? 0) eqn:E; [apply Z.ltb_lt in E; lia|reflexivity].
Qed.

(** The size check of a call, as a case distinction. *)
Lemma size_check_cases r :
  (limited r = true /\ n r <= 0) \/ (limited r = false \/ 0 < n r).
Proof.
  destruct (limited r); [|right; left; reflexivity].
  destruct (Z.le_gt_cases (n r) 0); [left; auto|right; right; lia].
Qed.

(** X1: a call with an empty buffer takes nothing from the source and
    records no call on the connection; it returns zero bytes and leaves the
    reader as it was, with [ErrDataTooLarge] when a limited reader has
    nothing remaining, else with [io.EOF] in [stateEOF], else with a nil
    error. *)
Theorem Read_empty_buffer r c :
  Read r c [] =
    mkReadOut r c [] 0
      (if limited r && (n r <=? 0) then Some (smtp_error ErrDataTooLarge)
       else if State_eqb (state r) stateEOF then Some io_EOF
       else None).
Proof.
  destruct (size_check_cases r) as [[Hl Hn]|Hr].
  - rewrite (Read_too_large r c [] Hl Hn), Hl.
    apply Z.leb_le in Hn. rewrite Hn. reflexivity.
  - rewrite Read_unfold by exact Hr. rewrite (cap_nil r Hr).
    rewrite read_loop_full by lia.
    cbn [lo_state lo_n lo_conn lo_src lo_buf lo_err].
    rewrite set_text_R_same.
    replace (if limited r then n r - Z.of_nat 0 else n r) with (n r)
      by (destruct (limited r); simpl; lia).
    rewrite reader_eta.
    replace (limited r && (n r <=? 0)) with false; [reflexivity|].
    destruct Hr as [Hr|Hr]; [rewrite Hr; reflexivity|].
    apply Z.leb_gt in Hr. rewrite Hr, andb_false_r. reflexivity.
Qed.

(** X2: whatever the source does, the count a call returns is at most the
    length of the buffer (and, for a limited reader with bytes remaining,
    at most what remains); the call keeps the length of the buffer and
    leaves every byte from index [n] on as the caller had it. *)
Theorem Read_within_buffer r c b :
  (count (Read r c b) <= length b)%nat /\
  (count (Read r c b) <= cap r b)%nat /\
  length (buf (Read r c b)) = length b /\
  drop (count (Read r c b)) (buf (Read r c b)) = drop (count (Read r c b)) b /\
  length (chunk (Read r c b)) = count (Read r c b).
Proof.
  assert (H : (count (Read r c b) <= cap r b)%nat /\
              length (buf (Read r c b)) = length b /\
              drop (count (Read r c b)) (buf (Read r c b))
                = drop (count (Read r c b)) b).
  { destruct (size_check_cases r) as [[Hl Hn]|Hr].
    - rewrite (Read_too_large r c b Hl Hn). simpl. repeat split; lia.
    - rewrite Read_unfold by exact Hr. cbn [count buf].
      destruct (read_loop_bounds (text_R c) c (state r) b (cap r b) 0
                  ltac:(lia)) as [H1 _].
      destruct (read_loop_buffer (text_R c) c (state r) b (cap r b) 0
                  ltac:(lia)) as [H2 H3].
      repeat split; auto; lia. }
  destruct H as (H1 & H2 & H3). pose proof (cap_le r b) as Hk.
  repeat split; auto; try lia.
  unfold chunk. rewrite length_take. lia.
Qed.

(** X3: a call takes entries off the front of the source only, and at
    least as many as the bytes it returns. *)
Theorem Read_consumes_prefix r c b :
  exists used,
    text_R c = used ++ text_R (cn (Read r c b)) /\
    (count (Read r c b) <= length used)%nat.
Proof.
  destruct (size_check_cases r) as [[Hl Hn]|Hr].
  - rewrite (Read_too_large r c b Hl Hn). exists []. simpl. split; [reflexivity|lia].
  - rewrite Read_unfold by exact Hr. cbn [cn count set_text_R text_R].
    destruct (read_loop_consumed (text_R c) c (state r) b (cap r b) 0)
      as (used & E & Hn).
    exists used. split; [exact E|lia].
Qed.

(** X4: a call that returns a nil error has filled the buffer, up to what
    remains for a limited reader, and has not read the terminator; so with
    a non-empty buffer it never returns zero bytes and a nil error. *)
Theorem Read_nil_error_fills r c b :
  err (Read r c b) = None ->
  count (Read r c b) = cap r b /\
  state (rd (Read r c b)) <> stateEOF /\
  (b <> [] -> (0 < count (Read r c b))%nat).
Proof.
  destruct (size_check_cases r) as [[Hl Hn]|Hr].
  - rewrite (Read_too_large r c b Hl Hn). discriminate.
  - pose proof (cap_pos r b) as Hpos.
    rewrite Read_unfold by exact Hr. cbn [err count rd state].
    destruct (read_loop_stop (text_R c) c (state r) b (cap r b) 0 ltac:(lia))
      as [H1 _].
    destruct (lo_err (read_loop (text_R c) c (state r) b (cap r b) 0));
      [discriminate|].
    destruct (State_eqb (lo_state (read_loop (text_R c) c (state r) b (cap r b) 0))
                        stateEOF) eqn:S; [discriminate|].
    apply State_eqb_neq in S. intros _.
    destruct (H1 eq_refl) as [H|H]; [|contradiction].
    rewrite H. repeat split; auto.
Qed.

Lemma Read_nil_error_fills_witness :
  let c := conn_of 3 0 (bytes_of "abcdef") in
  count (Read (newDataReader c) c (repeat x00 8)) = 3%nat /\
  state (rd (Read (newDataReader c) c (repeat x00 8))) <> stateEOF /\
  (repeat x00 8 <> [] -> (0 < count (Read (newDataReader c) c (repeat x00 8)))%nat).
Proof.
  apply (Read_nil_error_fills
           (newDataReader (conn_of 3 0 (bytes_of "abcdef")))
           (conn_of 3 0 (bytes_of "abcdef")) (repeat x00 8)).
  reflexivity.
Defined.

(** ** Reading to the end always ends *)

Lemma ReadToEnd_nonempty b bufs r c : ReadToEnd (b :: bufs) r c <> [].
Proof. simpl. destruct (err (Read r c b)); discriminate. Qed.

Lemma final_err_cons o outs : outs <> [] -> final_err (o :: outs) = final_err outs.
Proof.
  intros H. unfold final_err. destruct outs as [|o' outs]; [contradiction|].
  rewrite last_cons_cons. reflexivity.
Qed.

(** A call with a non-empty buffer that returns a nil error has taken at
    least one entry off the source. *)
Lemma Read_progress r c b :
  b <> [] -> err (Read r c b) = None ->
  (S (length (text_R (cn (Read r c b)))) <= length (text_R c))%nat.
Proof.
  intros Hb. destruct (size_check_cases r) as [[Hl Hn]|Hr].
  - rewrite (Read_too_large r c b Hl Hn). discriminate.
  - pose proof (cap_pos r b Hb Hr) as Hpos.
    rewrite Read_unfold by exact Hr. cbn [err cn set_text_R text_R].
    destruct (read_loop_stop (text_R c) c (state r) b (cap r b) 0 ltac:(lia))
      as [H1 _].
    destruct (read_loop_consumed (text_R c) c (state r) b (cap r b) 0)
      as (used & E & Hused).
    destruct (lo_err (read_loop (text_R c) c (state r) b (cap r b) 0));
      [discriminate|].
    destruct (State_eqb (lo_state (read_loop (text_R c) c (state r) b (cap r b) 0))
                        stateEOF) eqn:S; [discriminate|].
    apply State_eqb_neq in S. intros _.
    destruct (H1 eq_refl) as [H|H]; [|contradiction].
    assert (Hl : length (text_R c)
                 = (length used + length (lo_src (read_loop (text_R c) c (state r) b (cap r b) 0)))%nat).
    { rewrite E at 1. apply length_app. }
    lia.
Qed.

(** X5: whatever the source holds, bytes and failures alike, a caller that
    reads with non-empty buffers until a call returns an error gets that
    error after at most one call more than the source has entries. *)
Theorem ReadToEnd_ends bufs : forall r c,
  Forall (fun b => b <> []) bufs ->
  (length (text_R c) < length bufs)%nat ->
  final_err (ReadToEnd bufs r c) <> None /\
  (length (ReadToEnd bufs r c) <= S (length (text_R c)))%nat.
Proof.
  induction bufs as [|b bufs IH]; intros r c Hne Hlen; [simpl in Hlen; lia|].
  inversion Hne as [|? ? Hb Hne']; subst. cbn [ReadToEnd].
  destruct (err (Read r c b)) as [e|] eqn:He.
  - unfold final_err. simpl. rewrite He. split; [discriminate|lia].
  - pose proof (Read_progress r c b Hb He) as Hshort.
    simpl in Hlen.
    destruct (IH (rd (Read r c b)) (cn (Read r c b)) Hne' ltac:(lia))
      as [H1 H2].
    destruct bufs as [|b' bufs]; [simpl in Hlen; lia|].
    rewrite final_err_cons by apply ReadToEnd_nonempty.
    split; [exact H1|].
    change (S (length (ReadToEnd (b' :: bufs) (rd (Read r c b)) (cn (Read r c b))))
            <= S (length (text_R c)))%nat.
    lia.
Qed.

Lemma ReadToEnd_ends_witness :
  let c := mkConn 0 0 [inl x61; inr (other_error 1); inl x62] [] [] in
  final_err (ReadToEnd (buffers 1 4) (newDataReader c) c) <> None /\
  (length (ReadToEnd (buffers 1 4) (newDataReader c) c) <= S (length (text_R c)))%nat.
Proof.
  apply (ReadToEnd_ends (buffers 1 4)).
  - repeat constructor; discriminate.
  - simpl. lia.
Defined.

(** ** A deadline that cannot be set *)

(** What arming the deadline adds to the record, entry by entry. *)
Lemma arm_deadline_shape c :
  events (fst (arm_deadline c)) =
    events c ++
    (if ReadTimeout c =? 0 then []
     else [EvSetReadDeadline (ReadTimeout c) (snd (arm_deadline c))]) /\
  (ReadTimeout c = 0 -> snd (arm_deadline c) = None).
Proof.
  unfold arm_deadline. destruct (ReadTimeout c =? 0) eqn:E.
  - simpl. rewrite app_nil_r. auto.
  - apply Z.eqb_neq in E. split; [|contradiction].
    unfold SetReadDeadline. destruct (deadline_results c); reflexivity.
Qed.

(** A failed [SetReadDeadline] is the last entry of the record of the
    loop, and its error is the error of the loop. *)
Lemma read_loop_deadline src : forall c st b k cnt,
  exists evs,
    events (lo_conn (read_loop src c st b k cnt)) = events c ++ evs /\
    forall d e, In (EvSetReadDeadline d (Some e)) evs ->
      lo_err (read_loop src c st b k cnt) = Some e /\
      d = ReadTimeout c /\
      log_lines evs = [] /\
      (forall res, ~ In (EvReadByte (inr res)) evs) /\
      last evs = Some (EvSetReadDeadline d (Some e)).
Proof.
  induction src as [|x src IH]; intros c st b k cnt; simpl;
    destruct ((cnt <? k)%nat && negb (State_eqb st stateEOF));
    try (exists []; simpl; rewrite app_nil_r; split; [reflexivity|];
         intros d e []);
    destruct (arm_deadline_shape c) as [Hev Hzero];
    destruct (arm_deadline_frame c) as (HT & _);
    destruct (arm_deadline c) as [c1 [e0|]]; simpl in *;
    destruct (ReadTimeout c =? 0) eqn:Z;
    try (apply Z.eqb_eq in Z; specialize (Hzero Z); discriminate);
    try (exists [EvSetReadDeadline (ReadTimeout c) (Some e0)];
         split; [exact Hev|]; intros d e [H|[]]; inversion H; subst;
         repeat split; auto; intros res [H'|[]]; discriminate).
  - exists [EvReadByte (inr io_EOF)]. rewrite Hev, app_nil_r.
    split; [reflexivity|]. intros d e [H|[]]. discriminate.
  - exists [EvSetReadDeadline (ReadTimeout c) None; EvReadByte (inr io_EOF)].
    rewrite Hev, <- app_assoc. split; [reflexivity|].
    intros d e [H|[H|[]]]; discriminate.
  - destruct x as [ch|e1].
    + assert (Hrec : forall st' b' cnt',
        exists evs,
          events (lo_conn (read_loop src (log_event c1 (EvReadByte (inl ch)))
                             st' b' k cnt')) = events c ++ evs /\
          forall d e, In (EvSetReadDeadline d (Some e)) evs ->
            lo_err (read_loop src (log_event c1 (EvReadByte (inl ch)))
                      st' b' k cnt') = Some e /\
            d = ReadTimeout c /\
            log_lines evs = [] /\
            (forall res, ~ In (EvReadByte (inr res)) evs) /\
            last evs = Some (EvSetReadDeadline d (Some e))).
      { intros st' b' cnt'.
        destruct (IH (log_event c1 (EvReadByte (inl ch))) st' b' k cnt')
          as (evs & He & Hf).
        simpl in He. rewrite Hev, app_nil_r in He.
        exists (EvReadByte (inl ch) :: evs).
        rewrite He, <- app_assoc. split; [reflexivity|].
        intros d e [H|H]; [discriminate|].
        destruct (Hf d e H) as (H1 & H2 & H3 & H4 & H5).
        simpl in H2. rewrite HT in H2.
        repeat split; auto.
        - intros res [H'|H']; [discriminate|exact (H4 res H')].
        - rewrite last_cons, H5. reflexivity. }
      destruct (transition st ch) as [st' [|]]; apply Hrec.
    + pose proof (read_failure_events (log_event c1 (EvReadByte (inr e1))) e1)
        as Hf.
      destruct (read_failure _ e1) as [c2 e']. simpl in *.
      exists (EvReadByte (inr e1) ::
                (if is_net_timeout e1
                 then [EvPrintf "data read timeout: %w" e1] else [])).
      rewrite Hf, Hev, app_nil_r, <- app_assoc. split; [reflexivity|].
      intros d e [H|H]; [discriminate|].
      destruct (is_net_timeout e1); [destruct H as [H|[]]|destruct H].
      discriminate.
  - destruct x as [ch|e1].
    + assert (Hrec : forall st' b' cnt',
        exists evs,
          events (lo_conn (read_loop src (log_event c1 (EvReadByte (inl ch)))
                             st' b' k cnt')) = events c ++ evs /\
          forall d e, In (EvSetReadDeadline d (Some e)) evs ->
            lo_err (read_loop src (log_event c1 (EvReadByte (inl ch)))
                      st' b' k cnt') = Some e /\
            d = ReadTimeout c /\
            log_lines evs = [] /\
            (forall res, ~ In (EvReadByte (inr res)) evs) /\
            last evs = Some (EvSetReadDeadline d (Some e))).
      { intros st' b' cnt'.
        destruct (IH (log_event c1 (EvReadByte (inl ch))) st' b' k cnt')
          as (evs & He & Hf).
        simpl in He. rewrite Hev in He.
        exists (EvSetReadDeadline (ReadTimeout c) None
                  :: EvReadByte (inl ch) :: evs).
        rewrite He, <- !app_assoc. split; [reflexivity|].
        intros d e [H|[H|H]]; [discriminate|discriminate|].
        destruct (Hf d e H) as (H1 & H2 & H3 & H4 & H5).
        simpl in H2. rewrite HT in H2.
        repeat split; auto.
        - intros res [H'|[H'|H']]; [discriminate|discriminate|exact (H4 res H')].
        - rewrite !last_cons, H5. reflexivity. }
      destruct (transition st ch) as [st' [|]]; apply Hrec.
    + pose proof (read_failure_events (log_event c1 (EvReadByte (inr e1))) e1)
        as Hf.
      destruct (read_failure _ e1) as [c2 e']. simpl in *.
      exists (EvSetReadDeadline (ReadTimeout c) None :: EvReadByte (inr e1) ::
                (if is_net_timeout e1
                 then [EvPrintf "data read timeout: %w" e1] else [])).
      rewrite Hf, Hev, <- !app_assoc. split; [reflexivity|].
      intros d e [H|[H|H]]; [discriminate|discriminate|].
      destruct (is_net_timeout e1); [destruct H as [H|[]]|destruct H].
      discriminate.
Qed.

(** X6: when [SetReadDeadline] fails during a call, the call returns that
    error as it is, a timeout included: nothing is logged, no [ReadByte]
    of the call has failed, and the failed [SetReadDeadline] is the last
    thing the call does on the connection. *)
Theorem deadline_failure_returned r c b :
  exists evs,
    events (cn (Read r c b)) = events c ++ evs /\
    forall d e, In (EvSetReadDeadline d (Some e)) evs ->
      err (Read r c b) = Some e /\
      d = ReadTimeout c /\
      log_lines evs = [] /\
      (forall res, ~ In (EvReadByte (inr res)) evs) /\
      last evs = Some (EvSetReadDeadline d (Some e)).
Proof.
  destruct (size_check_cases r) as [[Hl Hn]|Hr].
  - rewrite (Read_too_large r c b Hl Hn). exists []. simpl.
    rewrite app_nil_r. split; [reflexivity|]. intros d e [].
  - rewrite Read_unfold by exact Hr. cbn [cn err set_text_R events].
    destruct (read_loop_deadline (text_R c) c (state r) b (cap r b) 0)
      as (evs & He & Hf).
    exists evs. split; [exact He|]. intros d e Hin.
    destruct (Hf d e Hin) as (H1 & H2). rewrite H1. auto.
Qed.

Lemma deadline_failure_returned_witness :
  let c := mkConn 0 30 (wire (bytes_of "abc")) [None; Some (net_Error true 9)] [] in
  let o := Read (newDataReader c) c (repeat x00 8) in
  (chunk o = bytes_of "a" /\ err o = Some (net_Error true 9) /\
   text_R (cn o) = wire (bytes_of "bc") /\
   events (cn o) =
     [EvSetReadDeadline 30 None; EvReadByte (inl x61);
      EvSetReadDeadline 30 (Some (net_Error true 9))]) /\
  exists evs,
    events (cn o) = events c ++ evs /\
    forall d e, In (EvSetReadDeadline d (Some e)) evs ->
      err o = Some e /\
      d = ReadTimeout c /\
      log_lines evs = [] /\
      (forall res, ~ In (EvReadByte (inr res)) evs) /\
      last evs = Some (EvSetReadDeadline d (Some e)).
Proof.
  intros c o. split; [repeat split; reflexivity|].
  apply (deadline_failure_returned (newDataReader c) c).
Defined.

(** ** What the decoder does to a whole message *)

(** Reading to the end from any state of the reader. *)
Lemma ReadToEnd_run bs r c bufs :
  text_R c = wire bs -> deadlines_ok c ->
  room_for r (length (snd (decode (state r) bs))) ->
  Forall (fun b => b <> []) bufs ->
  (length bs < length bufs)%nat ->
  received (ReadToEnd bufs r c) = snd (decode (state r) bs) /\
  final_err (ReadToEnd bufs r c) =
    Some (if State_eqb (fst (decode (state r) bs)) stateEOF
          then io_EOF else io_ErrUnexpectedEOF).
Proof.
  intros Hsrc Hok Hroom Hne Hlen.
  destruct (ReadToEnd_wire bufs bs r c Hsrc Hok Hne Hlen Hroom)
    as (init & lst & Hrun & _ & Hrecv & _ & Herr).
  rewrite Hrun, received_snoc, final_err_snoc. auto.
Qed.

(** X7: the bytes handed out and the error that ends the reading do not
    depend on how the caller sizes its buffers. *)
Theorem chunking_independent bs r c bufs1 bufs2 :
  text_R c = wire bs -> deadlines_ok c ->
  room_for r (length (snd (decode (state r) bs))) ->
  Forall (fun b => b <> []) bufs1 -> (length bs < length bufs1)%nat ->
  Forall (fun b => b <> []) bufs2 -> (length bs < length bufs2)%nat ->
  received (ReadToEnd bufs1 r c) = received (ReadToEnd bufs2 r c) /\
  final_err (ReadToEnd bufs1 r c) = final_err (ReadToEnd bufs2 r c).
Proof.
  intros Hsrc Hok Hroom Hne1 Hlen1 Hne2 Hlen2.
  destruct (ReadToEnd_run bs r c bufs1) as [H1 H2]; auto.
  destruct (ReadToEnd_run bs r c bufs2) as [H3 H4]; auto.
  split; congruence.
Qed.

Lemma chunking_independent_witness :
  let c := conn_of 0 0 (bytes_of "..a" ++ CRLF ++ bytes_of "b" ++ CRLF ++ dot :: CRLF) in
  received (ReadToEnd (buffers 1 12) (newDataReader c) c)
    = received (ReadToEnd (buffers 7 12) (newDataReader c) c) /\
  final_err (ReadToEnd (buffers 1 12) (newDataReader c) c)
    = final_err (ReadToEnd (buffers 7 12) (newDataReader c) c).
Proof.
  apply (chunking_independent
           (bytes_of "..a" ++ CRLF ++ bytes_of "b" ++ CRLF ++ dot :: CRLF)).
  - reflexivity.
  - left. reflexivity.
  - left. reflexivity.
  - repeat constructor; discriminate.
  - simpl. lia.
  - repeat constructor; discriminate.
  - simpl. lia.
Defined.

Lemma decode_sublist bs : forall st, snd (decode st bs) `sublist_of` bs.
Proof.
  induction bs as [|ch bs IH]; intros st; [constructor|].
  destruct (State_eqb st stateEOF) eqn:E.
  - apply State_eqb_eq in E. subst. rewrite decode_EOF. apply sublist_nil_l.
  - apply State_eqb_neq in E. rewrite decode_cons by exact E.
    cbn [snd]. destruct (snd (transition st ch)).
    + apply sublist_skip, IH.
    + apply sublist_cons, IH.
Qed.

(** X8: the decoder only drops bytes: what it hands out is the input with
    some bytes left out, in the same order; no byte is changed, added or
    moved. *)
Theorem received_sublist bs r c bufs :
  text_R c = wire bs -> deadlines_ok c ->
  room_for r (length (snd (decode (state r) bs))) ->
  Forall (fun b => b <> []) bufs ->
  (length bs < length bufs)%nat ->
  received (ReadToEnd bufs r c) `sublist_of` bs /\
  (length (received (ReadToEnd bufs r c)) <= length bs)%nat.
Proof.
  intros Hsrc Hok Hroom Hne Hlen.
  destruct (ReadToEnd_run bs r c bufs) as [H _]; auto.
  rewrite H. split; [apply decode_sublist|].
  apply sublist_length, decode_sublist.
Qed.

Lemma received_sublist_witness :
  let bs := bytes_of ".a." ++ CRLF ++ dot :: CR :: bytes_of "b" ++ CRLF ++ dot :: CRLF in
  let c := conn_of 0 0 bs in
  received (ReadToEnd (buffers 2 20) (newDataReader c) c) `sublist_of` bs /\
  (length (received (ReadToEnd (buffers 2 20) (newDataReader c) c))
   <= length bs)%nat.
Proof.
  apply received_sublist.
  - reflexivity.
  - left. reflexivity.
  - left. reflexivity.
  - repeat constructor; discriminate.
  - simpl. lia.
Defined.

Lemma decode_no_dot bs : forall st,
  st = stateBeginLine \/ st = stateCR \/ st = stateData ->
  Forall (fun ch => ch <> dot) bs ->
  snd (decode st bs) = bs /\
  (fst (decode st bs) = stateBeginLine \/ fst (decode st bs) = stateCR \/
   fst (decode st bs) = stateData).
Proof.
  induction bs as [|ch bs IH]; intros st Hst Hbs; [simpl; auto|].
  inversion Hbs as [|? ? Hch Hbs']; subst.
  assert (Hne : st <> stateEOF) by (destruct Hst as [?|[?|?]]; subst; discriminate).
  rewrite decode_cons by exact Hne.
  assert (T : snd (transition st ch) = true /\
              (fst (transition st ch) = stateBeginLine \/
               fst (transition st ch) = stateCR \/
               fst (transition st ch) = stateData)).
  { destruct Hst as [?|[?|?]]; subst; simpl; rewrite ?(eqb_neq ch dot Hch);
      try destruct (Byte.eqb ch LF); try destruct (Byte.eqb ch CR);
      simpl; auto. }
  destruct T as [T1 T2]. rewrite T1. cbn [fst snd].
  destruct (IH _ T2 Hbs') as [H1 H2]. rewrite H1. auto.
Qed.

(** X9: a stream that holds no dot is handed out byte for byte, and as it
    holds no terminator either, the reading ends with
    [io.ErrUnexpectedEOF]. *)
Theorem no_dot_unchanged bs r c bufs :
  Forall (fun ch => ch <> dot) bs ->
  state r = stateBeginLine ->
  text_R c = wire bs -> deadlines_ok c ->
  room_for r (length bs) ->
  Forall (fun b => b <> []) bufs ->
  (length bs < length bufs)%nat ->
  received (ReadToEnd bufs r c) = bs /\
  final_err (ReadToEnd bufs r c) = Some io_ErrUnexpectedEOF.
Proof.
  intros Hbs Hst Hsrc Hok Hroom Hne Hlen.
  destruct (decode_no_dot bs stateBeginLine (or_introl eq_refl) Hbs) as [H1 H2].
  destruct (ReadToEnd_run bs r c bufs) as [H3 H4]; auto.
  - rewrite Hst, H1. exact Hroom.
  - rewrite Hst in H3, H4. rewrite H1 in H3. split; [exact H3|].
    rewrite H4. destruct H2 as [H2|[H2|H2]]; rewrite H2; reflexivity.
Qed.

Lemma no_dot_unchanged_witness :
  let bs := bytes_of "one" ++ CRLF ++ [LF; CR] ++ bytes_of "two" ++ [LF] in
  let c := conn_of 0 0 bs in
  received (ReadToEnd (buffers 3 12) (newDataReader c) c) = bs /\
  final_err (ReadToEnd (buffers 3 12) (newDataReader c) c)
    = Some io_ErrUnexpectedEOF.
Proof.
  apply no_dot_unchanged.
  - repeat constructor; discriminate.
  - reflexivity.
  - reflexivity.
  - left. reflexivity.
  - left. reflexivity.
  - repeat constructor; discriminate.
  - simpl. lia.
Defined.

(** ** Carriage returns and line feeds on their own *)

Lemma decode_dot_CR_line ch l :
  ch <> LF -> is_line l ->
  decode stateBeginLine (dot :: CR :: ch :: l ++ CRLF)
    = (stateBeginLine, ch :: l ++ CRLF).
Proof.
  intros Hlf Hl.
  rewrite decode_cons by discriminate. simpl transition. cbn [fst snd].
  rewrite decode_cons by discriminate. simpl transition. cbn [fst snd].
  rewrite decode_cons by discriminate. simpl transition.
  rewrite (eqb_neq ch LF Hlf). cbn [fst snd].
  rewrite decode_rest_of_line by auto. reflexivity.
Qed.

(** X10: in a line that begins with a dot and a carriage return followed
    by a byte other than a line feed, the carriage return is dropped
    together with the dot: [. CR x ... CR LF] is handed out as
    [x ... CR LF]. *)
Theorem dot_CR_dropped ch l rest r c bufs :
  ch <> LF -> is_line l ->
  state r = stateBeginLine ->
  text_R c = wire (dot :: CR :: ch :: l ++ CRLF ++ rest) ->
  deadlines_ok c ->
  room_for r (length (ch :: l ++ CRLF ++ decoded rest)) ->
  Forall (fun b => b <> []) bufs ->
  (length (dot :: CR :: ch :: l ++ CRLF ++ rest) < length bufs)%nat ->
  received (ReadToEnd bufs r c) = ch :: l ++ CRLF ++ decoded rest.
Proof.
  intros Hlf Hl Hst Hsrc Hok Hroom Hne Hlen.
  assert (Hdec : decoded (dot :: CR :: ch :: l ++ CRLF ++ rest)
                 = ch :: l ++ CRLF ++ decoded rest).
  { unfold decoded.
    assert (E : dot :: CR :: ch :: l ++ CRLF ++ rest
                = (dot :: CR :: ch :: l ++ CRLF) ++ rest).
    { simpl. rewrite <- app_assoc. reflexivity. }
    rewrite E, decode_app, (decode_dot_CR_line ch l Hlf Hl). cbn [fst snd].
    simpl. rewrite <- app_assoc. reflexivity. }
  destruct (ReadToEnd_decoded (dot :: CR :: ch :: l ++ CRLF ++ rest) r c bufs)
    as [H _]; auto.
  - rewrite Hdec. exact Hroom.
  - rewrite H. exact Hdec.
Qed.

Lemma dot_CR_dropped_witness :
  let c := conn_of 0 0 (dot :: CR :: bytes_of "xy" ++ CRLF ++ dot :: CRLF) in
  received (ReadToEnd (buffers 4 10) (newDataReader c) c)
    = bytes_of "xy" ++ CRLF.
Proof.
  apply (dot_CR_dropped x78 (bytes_of "y") (dot :: CRLF)).
  - discriminate.
  - repeat constructor; discriminate.
  - reflexivity.
  - reflexivity.
  - left. reflexivity.
  - left. reflexivity.
  - repeat constructor; discriminate.
  - simpl. lia.
Defined.

(** X11: after a CRLF, or at the very start, a dot followed by a line feed
    alone ends the message like the terminator line does: what came before
    is handed out and the reading ends with [io.EOF]. *)
Theorem dot_LF_terminates p r c bufs :
  p = [] \/ (exists q, p = q ++ CRLF) ->
  state r = stateBeginLine ->
  text_R c = wire (p ++ [dot; LF]) ->
  deadlines_ok c ->
  room_for r (length (decoded p)) ->
  Forall (fun b => b <> []) bufs ->
  (length p + 2 < length bufs)%nat ->
  received (ReadToEnd bufs r c) = decoded p /\
  final_err (ReadToEnd bufs r c) = Some io_EOF.
Proof.
  intros Hp Hst Hsrc Hok Hroom Hne Hlen.
  assert (Hdec : decode stateBeginLine (p ++ [dot; LF]) = (stateEOF, decoded p)).
  { unfold decoded. rewrite decode_app.
    assert (H : fst (decode stateBeginLine p) = stateBeginLine \/
                fst (decode stateBeginLine p) = stateEOF).
    { destruct Hp as [->|[q ->]]; [left; reflexivity|apply decode_after_CRLF]. }
    destruct H as [H|H]; rewrite H; simpl; rewrite app_nil_r; reflexivity. }
  destruct (ReadToEnd_decoded (p ++ [dot; LF]) r c bufs) as [H1 H2]; auto.
  - unfold decoded at 1. rewrite Hdec. exact Hroom.
  - rewrite length_app. simpl. lia.
  - unfold decoded in H1 at 1. rewrite Hdec in H1, H2. auto.
Qed.

Lemma dot_LF_terminates_witness :
  let c := conn_of 0 0 (bytes_of "a" ++ CRLF ++ [dot; LF]) in
  received (ReadToEnd (buffers 2 6) (newDataReader c) c)
    = decoded (bytes_of "a" ++ CRLF) /\
  final_err (ReadToEnd (buffers 2 6) (newDataReader c) c) = Some io_EOF.
Proof.
  apply (dot_LF_terminates (bytes_of "a" ++ CRLF)).
  - right. exists (bytes_of "a"). reflexivity.
  - reflexivity.
  - reflexivity.
  - left. reflexivity.
  - left. reflexivity.
  - repeat constructor; discriminate.
  - simpl. lia.
Defined.

Lemma decode_LF_line ch l :
  ch <> dot -> is_line (ch :: l) ->
  decode stateBeginLine (ch :: l ++ LF :: dot :: CRLF)
    = (stateEOF, ch :: l ++ [LF]).
Proof.
  intros Hch Hl. inversion Hl as [|? ? Hlf Hl']; subst.
  rewrite decode_cons by discriminate. simpl transition.
  rewrite (eqb_neq ch dot Hch). cbn [fst snd].
  rewrite decode_app.
  destruct (decode_inside l stateData (or_introl eq_refl) Hl') as [H1 H2].
  rewrite H1. destruct H2 as [H2|H2]; rewrite H2; reflexivity.
Qed.

(** X12: a line that does not begin with a dot and is closed by a line
    feed alone still counts as a line: the terminator line that follows it
    ends the message, and the line is handed out with its line feed. *)
Theorem LF_line_then_terminator ch l r c bufs :
  ch <> dot -> is_line (ch :: l) ->
  state r = stateBeginLine ->
  text_R c = wire (ch :: l ++ LF :: dot :: CRLF) ->
  deadlines_ok c ->
  room_for r (length (ch :: l ++ [LF])) ->
  Forall (fun b => b <> []) bufs ->
  (length (ch :: l ++ LF :: dot :: CRLF) < length bufs)%nat ->
  received (ReadToEnd bufs r c) = ch :: l ++ [LF] /\
  final_err (ReadToEnd bufs r c) = Some io_EOF.
Proof.
  intros Hch Hl Hst Hsrc Hok Hroom Hne Hlen.
  pose proof (decode_LF_line ch l Hch Hl) as Hdec.
  destruct (ReadToEnd_decoded (ch :: l ++ LF :: dot :: CRLF) r c bufs)
    as [H1 H2]; auto.
  - unfold decoded. rewrite Hdec. exact Hroom.
  - unfold decoded in H1. rewrite Hdec in H1, H2. auto.
Qed.

Lemma LF_line_then_terminator_witness :
  let c := conn_of 0 0 (bytes_of "ab" ++ LF :: dot :: CRLF) in
  received (ReadToEnd (buffers 2 8) (newDataReader c) c)
    = bytes_of "ab" ++ [LF] /\
  final_err (ReadToEnd (buffers 2 8) (newDataReader c) c) = Some io_EOF.
Proof.
  apply (LF_line_then_terminator x61 (bytes_of "b")).
  - discriminate.
  - repeat constructor; discriminate.
  - reflexivity.
  - reflexivity.
  - left. reflexivity.
  - left. reflexivity.
  - repeat constructor; discriminate.
  - simpl. lia.
Defined.

(** X13: a line feed that stands first in a line does not open a new line:
    it is stored from [stateBeginLine] on the way to [stateData], so a dot
    line right after it is data and does not end the message. *)
Theorem LF_first_in_line p rest r c bufs :
  fst (decode stateBeginLine p) = stateBeginLine ->
  state r = stateBeginLine ->
  text_R c = wire (p ++ LF :: dot :: CRLF ++ rest) ->
  deadlines_ok c ->
  room_for r (length (decoded p ++ LF :: dot :: CRLF ++ decoded rest)) ->
  Forall (fun b => b <> []) bufs ->
  (length (p ++ LF :: dot :: CRLF ++ rest) < length bufs)%nat ->
  received (ReadToEnd bufs r c) = decoded p ++ LF :: dot :: CRLF ++ decoded rest.
Proof.
  intros Hp Hst Hsrc Hok Hroom Hne Hlen.
  assert (Hdec : decoded (p ++ LF :: dot :: CRLF ++ rest)
                 = decoded p ++ LF :: dot :: CRLF ++ decoded rest).
  { unfold decoded. rewrite decode_out_app, Hp.
    change (LF :: dot :: CRLF ++ rest) with ([LF; dot; CR; LF] ++ rest).
    rewrite decode_out_app. reflexivity. }
  destruct (ReadToEnd_decoded (p ++ LF :: dot :: CRLF ++ rest) r c bufs)
    as [H _]; auto.
  - rewrite Hdec. exact Hroom.
  - rewrite H. exact Hdec.
Qed.

Lemma LF_first_in_line_witness :
  let c := conn_of 0 0 (bytes_of "a" ++ CRLF ++ LF :: dot :: CRLF ++ dot :: CRLF) in
  received (ReadToEnd (buffers 3 12) (newDataReader c) c)
    = bytes_of "a" ++ CRLF ++ LF :: dot :: CRLF.
Proof.
  apply (LF_first_in_line (bytes_of "a" ++ CRLF) (dot :: CRLF)).
  - reflexivity.
  - reflexivity.
  - reflexivity.
  - left. reflexivity.
  - left. reflexivity.
  - repeat constructor; discriminate.
  - simpl. lia.
Defined.

(** ** Reaching the size limit *)

Lemma chunk_length r c b : length (chunk (Read r c b)) = count (Read r c b).
Proof.
  unfold chunk. rewrite length_take.
  destruct (size_check_cases r) as [[Hl Hn]|Hr].
  - rewrite (Read_too_large r c b Hl Hn). simpl. lia.
  - rewrite Read_unfold by exact Hr. cbn [count buf].
    destruct (read_loop_bounds (text_R c) c (state r) b (cap r b) 0
                ltac:(lia)) as [H1 _].
    destruct (read_loop_buffer (text_R c) c (state r) b (cap r b) 0
                ltac:(lia)) as [H2 _].
    pose proof (cap_le r b). lia.
Qed.

(** A call that fails for want of input had room left in the buffer. *)
Lemma Read_unexpected_room r c b :
  limited r = false \/ 0 < n r ->
  err (Read r c b) = Some io_ErrUnexpectedEOF ->
  (count (Read r c b) < cap r b)%nat.
Proof.
  intros Hr. rewrite Read_unfold by exact Hr. cbn [err count].
  destruct (read_loop_stop (text_R c) c (state r) b (cap r b) 0 ltac:(lia))
    as [_ H].
  destruct (lo_err (read_loop (text_R c) c (state r) b (cap r b) 0)) as [e|].
  - intros _. apply H. discriminate.
  - destruct (State_eqb _ stateEOF); discriminate.
Qed.

Lemma ReadToEnd_cut bufs : forall bs r c,
  text_R c = wire bs -> deadlines_ok c ->
  Forall (fun b => b <> []) bufs ->
  (S (length bs) < length bufs)%nat ->
  limited r = true -> 0 < n r ->
  n r <= Z.of_nat (length (snd (decode (state r) bs))) ->
  received (ReadToEnd bufs r c)
    = take (Z.to_nat (n r)) (snd (decode (state r) bs)) /\
  final_err (ReadToEnd bufs r c) = Some (smtp_error ErrDataTooLarge).
Proof.
  induction bufs as [|b bufs IH]; intros bs r c Hsrc Hok Hne Hlen Hl Hn Hbig.
  - simpl in Hlen. lia.
  - inversion Hne as [|? ? Hb Hne']; subst.
    destruct (Read_wire r c b bs Hsrc Hok Hb (or_intror Hn))
      as (pre & post & E & Hs & Hdl & Hst & Hch & Hlim & Hrem & Hcase).
    destruct (Read_limited r c b Hl ltac:(lia)) as (_ & Hmin & Heof).
    pose proof (chunk_length r c b) as Hcl.
    subst bs. rewrite decode_out_app in *. rewrite <- Hch, <- Hst in *.
    rewrite length_app in Hbig. rewrite Hl in Hrem.
    cbn [ReadToEnd].
    destruct Hcase as [(He & Hpre & Hnot)|[(He & Hend)|(He & Hpost & Hnot)]].
    + rewrite He.
      assert (Hpost : (S (length post) <= length bufs)%nat).
      { rewrite length_app in Hlen. simpl in Hlen.
        destruct pre; [congruence|simpl in Hlen; lia]. }
      destruct (Z.le_gt_cases (n (rd (Read r c b))) 0) as [Hz|Hz].
      * destruct bufs as [|b' bufs]; [simpl in Hpost; lia|].
        cbn [ReadToEnd].
        rewrite (Read_too_large (rd (Read r c b)) (cn (Read r c b)) b')
          by (rewrite ?Hlim; auto).
        cbn [err]. unfold received, final_err. simpl.
        rewrite app_nil_r. split; [|reflexivity].
        rewrite take_app_length'; [reflexivity|]. lia.
      * destruct (IH post (rd (Read r c b)) (cn (Read r c b)) Hs Hdl Hne')
          as [H1 H2]; try lia.
        { rewrite length_app in Hlen. simpl in Hlen.
          destruct pre; [congruence|simpl in Hlen; lia]. }
        { rewrite Hlim. exact Hl. }
        destruct bufs as [|b' bufs]; [simpl in Hpost; lia|].
        rewrite received_cons, H1.
        rewrite final_err_cons by apply ReadToEnd_nonempty.
        split; [|exact H2].
        replace (Z.to_nat (n r))
          with (length (chunk (Read r c b))
                + Z.to_nat (n (rd (Read r c b))))%nat by lia.
        rewrite take_app_add'; reflexivity.
    + exfalso. rewrite Hend, decode_EOF in Hbig. simpl in Hbig.
      destruct (Heof Hend Hn) as [[_ H]|H]; lia.
    + exfalso. subst post. simpl in Hbig.
      pose proof (Read_unexpected_room r c b (or_intror Hn) He).
      pose proof (cap_limit r b Hl Hn). lia.
Qed.

(** X14: when a limited reader has [m] bytes remaining and the message
    decodes to [m] bytes or more, [m] included, reading to the end hands
    out exactly the first [m] decoded bytes and ends with
    [ErrDataTooLarge]. *)
Theorem limit_cuts_message bs r c bufs :
  text_R c = wire bs -> deadlines_ok c ->
  Forall (fun b => b <> []) bufs ->
  (S (length bs) < length bufs)%nat ->
  limited r = true -> 0 < n r ->
  n r <= Z.of_nat (length (snd (decode (state r) bs))) ->
  received (ReadToEnd bufs r c)
    = take (Z.to_nat (n r)) (snd (decode (state r) bs)) /\
  final_err (ReadToEnd bufs r c) = Some (smtp_error ErrDataTooLarge).
Proof. intros. apply ReadToEnd_cut; assumption. Qed.

Lemma limit_cuts_message_witness :
  let bs := bytes_of "a" ++ CRLF ++ dot :: CRLF in
  let c := conn_of 3 0 bs in
  received (ReadToEnd (buffers 8 8) (newDataReader c) c)
    = take (Z.to_nat (n (newDataReader c)))
           (snd (decode (state (newDataReader c)) bs)) /\
  final_err (ReadToEnd (buffers 8 8) (newDataReader c) c)
    = Some (smtp_error ErrDataTooLarge).
Proof.
  apply limit_cuts_message.
  - reflexivity.
  - left. reflexivity.
  - repeat constructor; discriminate.
  - simpl. lia.
  - reflexivity.
  - simpl. lia.
  - simpl. lia.
Defined.

(** ** Where the errors of a call come from *)

Lemma arm_deadline_results c :
  (forall e, snd (arm_deadline c) = Some e -> In (Some e) (deadline_results c)) /\
  (forall x, In x (deadline_results (fst (arm_deadline c))) ->
             In x (deadline_results c)).
Proof.
  unfold arm_deadline. destruct (ReadTimeout c =? 0); simpl.
  - split; [discriminate|auto].
  - unfold SetReadDeadline.
    destruct (deadline_results c) as [|res rest] eqn:D; simpl; rewrite ?D.
    + split; [discriminate|auto].
    + split; [intros e ->; left; reflexivity|auto].
Qed.

Lemma translate_cases e :
  translate e = io_ErrUnexpectedEOF \/
  translate e = smtp_error ErrDataTimeout \/
  translate e = e.
Proof. destruct e as [| | |[|]|]; simpl; auto. Qed.

Lemma read_loop_error src : forall c st b k cnt e,
  lo_err (read_loop src c st b k cnt) = Some e ->
  e = io_ErrUnexpectedEOF \/ e = smtp_error ErrDataTimeout \/
  In (inr e) src \/ In (Some e) (deadline_results c).
Proof.
  induction src as [|x src IH]; intros c st b k cnt e; simpl;
    destruct ((cnt <? k)%nat && negb (State_eqb st stateEOF));
    try discriminate;
    destruct (arm_deadline_results c) as [Hfail Hsub];
    destruct (arm_deadline c) as [c1 [e0|]]; simpl in *;
    try (intros H; inversion H; subst; right; right; right; auto; fail).
  - intros H. inversion H. auto.
  - destruct x as [ch|e1].
    + assert (Hrec : forall st' b' cnt',
        lo_err (read_loop src (log_event c1 (EvReadByte (inl ch))) st' b' k cnt')
          = Some e ->
        e = io_ErrUnexpectedEOF \/ e = smtp_error ErrDataTimeout \/
        (inl ch = inr e \/ In (inr e) src) \/ In (Some e) (deadline_results c)).
      { intros st' b' cnt' H.
        destruct (IH _ _ _ _ _ _ H) as [H1|[H1|[H1|H1]]];
          [left; exact H1|right; left; exact H1
          |right; right; left; right; exact H1|].
        right. right. right. apply Hsub. exact H1. }
      destruct (transition st ch) as [st' [|]]; apply Hrec.
    + pose proof (translate_eq (log_event c1 (EvReadByte (inr e1))) e1) as Htr.
      destruct (read_failure _ e1) as [c2 e']. simpl in *. subst e'.
      intros H. inversion H; subst e.
      destruct (translate_cases e1) as [H1|[H1|H1]];
        [left; exact H1|right; left; exact H1|].
      right. right. left. left. rewrite H1. reflexivity.
Qed.

(** X15: every error a call returns is [ErrDataTooLarge] from the size
    check of a limited reader with nothing remaining, [io.EOF] with the
    reader in [stateEOF], [io.ErrUnexpectedEOF], [ErrDataTimeout], or an
    error that [ReadByte] or [SetReadDeadline] returned; so a reader
    without a limit never makes up a size error. *)
Theorem Read_error_origin r c b e :
  err (Read r c b) = Some e ->
  (e = smtp_error ErrDataTooLarge /\ limited r = true /\ n r <= 0) \/
  (e = io_EOF /\ state (rd (Read r c b)) = stateEOF) \/
  e = io_ErrUnexpectedEOF \/
  e = smtp_error ErrDataTimeout \/
  In (inr e) (text_R c) \/
  In (Some e) (deadline_results c).
Proof.
  destruct (size_check_cases r) as [[Hl Hn]|Hr].
  - rewrite (Read_too_large r c b Hl Hn). simpl. intros H. inversion H. auto.
  - rewrite Read_unfold by exact Hr. cbn [err rd state].
    pose proof (read_loop_error (text_R c) c (state r) b (cap r b) 0) as Hloop.
    destruct (lo_err (read_loop (text_R c) c (state r) b (cap r b) 0)) as [e0|].
    + intros H. inversion H; subst. right. right. apply Hloop. reflexivity.
    + destruct (State_eqb _ stateEOF) eqn:S; [|discriminate].
      apply State_eqb_eq in S. intros H. inversion H. auto.
Qed.

Lemma Read_error_origin_witness :
  let c := mkConn 0 0 [inl x61; inr (other_error 3)] [] [] in
  let r := newDataReader c in
  let e := other_error 3 in
  (e = smtp_error ErrDataTooLarge /\ limited r = true /\ n r <= 0) \/
  (e = io_EOF /\ state (rd (Read r c (repeat x00 4))) = stateEOF) \/
  e = io_ErrUnexpectedEOF \/
  e = smtp_error ErrDataTimeout \/
  In (inr e) (text_R c) \/
  In (Some e) (deadline_results c).
Proof.
  apply (Read_error_origin
           (newDataReader (mkConn 0 0 [inl x61; inr (other_error 3)] [] []))
           (mkConn 0 0 [inl x61; inr (other_error 3)] [] [])
           (repeat x00 4) (other_error 3)).
  reflexivity.
Defined.

(** ** A failure in the middle of a call *)

Lemma read_loop_fail pre : forall e rest c st b k cnt,
  deadlines_ok c ->
  (cnt + length (snd (decode st pre)) < k)%nat -> (k <= length b)%nat ->
  fst (decode st pre) <> stateEOF ->
  lo_src (read_loop (wire pre ++ inr e :: rest) c st b k cnt) = rest /\
  lo_state (read_loop (wire pre ++ inr e :: rest) c st b k cnt)
    = fst (decode st pre) /\
  lo_n (read_loop (wire pre ++ inr e :: rest) c st b k cnt)
    = (cnt + length (snd (decode st pre)))%nat /\
  take (lo_n (read_loop (wire pre ++ inr e :: rest) c st b k cnt))
       (lo_buf (read_loop (wire pre ++ inr e :: rest) c st b k cnt))
    = take cnt b ++ snd (decode st pre) /\
  lo_err (read_loop (wire pre ++ inr e :: rest) c st b k cnt)
    = Some (translate e).
Proof.
  induction pre as [|ch pre IH]; intros e rest c st b k cnt Hok Hroom Hk Hst.
  - simpl in *. rewrite Nat.add_0_r in *.
    apply Nat.ltb_lt in Hroom. rewrite Hroom.
    apply State_eqb_neq in Hst. rewrite Hst. simpl.
    destruct (arm_deadline_ok c Hok) as [Hd _].
    destruct (arm_deadline c) as [c1 derr]. simpl in Hd. subst derr.
    pose proof (translate_eq (log_event c1 (EvReadByte (inr e))) e) as Htr.
    destruct (read_failure _ e) as [c2 e']. simpl in *. subst e'.
    rewrite app_nil_r. auto.
  - assert (Hne : st <> stateEOF).
    { intros ->. rewrite decode_EOF in Hst. apply Hst. reflexivity. }
    rewrite decode_cons in * by exact Hne. cbn [fst snd] in *.
    change (wire (ch :: pre) ++ inr e :: rest)
      with (inl ch :: (wire pre ++ inr e :: rest)).
    cbn [read_loop].
    assert (Hc : (cnt < k)%nat) by lia.
    apply Nat.ltb_lt in Hc. rewrite Hc.
    pose proof Hne as Hne'. apply State_eqb_neq in Hne'. rewrite Hne'. simpl.
    destruct (arm_deadline_ok c Hok) as [Hd Hok1].
    destruct (arm_deadline c) as [c1 derr]. simpl in Hd, Hok1. subst derr.
    apply Nat.ltb_lt in Hc.
    destruct (transition st ch) as [st' [|]]; cbn [fst snd] in *.
    + destruct (IH e rest (log_event c1 (EvReadByte (inl ch))) st'
                  (<[cnt := ch]> b) k (S cnt))
        as (H1 & H2 & H3 & H4 & H5); auto.
      { simpl in Hroom. lia. }
      { rewrite length_insert. exact Hk. }
      rewrite take_store in H4 by lia. rewrite <- app_assoc in H4.
      simpl length. repeat split; auto. lia.
    + apply IH; auto.
Qed.

(** X16: when a [ReadByte] fails after the source has delivered the bytes
    [pre], and the buffer has room for more than they decode to, the call
    returns what [pre] decodes to together with the error; the reader
    keeps the state reached after [pre] and the source stands right after
    the failure, so a later call goes on from there. *)
Theorem failure_keeps_bytes pre e rest r c b :
  text_R c = wire pre ++ inr e :: rest ->
  deadlines_ok c ->
  limited r = false \/ 0 < n r ->
  (length (snd (decode (state r) pre)) < cap r b)%nat ->
  fst (decode (state r) pre) <> stateEOF ->
  chunk (Read r c b) = snd (decode (state r) pre) /\
  err (Read r c b) = Some (translate e) /\
  state (rd (Read r c b)) = fst (decode (state r) pre) /\
  text_R (cn (Read r c b)) = rest.
Proof.
  intros Hsrc Hok Hr Hroom Hst.
  rewrite Read_unfold by exact Hr. rewrite Hsrc.
  unfold chunk. cbn [count buf err rd cn state set_text_R text_R].
  destruct (read_loop_fail pre e rest c (state r) b (cap r b) 0 Hok)
    as (H1 & H2 & H3 & H4 & H5); auto.
  { apply cap_le. }
  rewrite H5. simpl in H4. auto.
Qed.

Lemma failure_keeps_bytes_witness :
  let c := mkConn 0 0 (wire (bytes_of "..a") ++ inr (other_error 5) :: wire (bytes_of "b")) [] [] in
  let r := newDataReader c in
  chunk (Read r c (repeat x00 8)) = snd (decode (state r) (bytes_of "..a")) /\
  err (Read r c (repeat x00 8)) = Some (translate (other_error 5)) /\
  state (rd (Read r c (repeat x00 8))) = fst (decode (state r) (bytes_of "..a")) /\
  text_R (cn (Read r c (repeat x00 8))) = wire (bytes_of "b").
Proof.
  apply (failure_keeps_bytes (bytes_of "..a") (other_error 5) (wire (bytes_of "b"))).
  - reflexivity.
  - left. reflexivity.
  - left. reflexivity.
  - vm_compute. lia.
  - discriminate.
Defined.
